(** * darch: the [inspect] command and its sub-commands

    A shallow embedding of [commands/inspect/inspect.go]: the image
    definitions held in a Go map, the chain walk of [parents], the scan of
    [children], the forest assembled by [tree] and the plain [inspect]
    action, followed by the properties established about them. *)

From Stdlib Require Import String Ascii List Sorting.Sorted Sorting.Permutation.
From Stdlib Require Import ssreflect.
From stdpp Require Import base option list gmap strings fin_maps fin_sets relations.

Set Warnings "-register-all,-rewrite-rw,-clear-no-such-hyp".

Local Open Scope string_scope.
Local Open Scope list_scope.

(** ** Data *)

Module Images.

(** Modelled from the spec: the Go type [images.ImageDefinition] is declared
    in the package [images], outside this file; the three fields that
    [inspect.go] reads are kept (the spec's DefinitionRecord: name,
    parentRef, isExternalParent). *)
Record ImageDefinition : Type := mkImageDefinition {
  Name : string;
  Inherits : string;
  InheritsExternal : bool
}.

(** The zero value of the struct, which a Go map lookup yields for a key that
    is absent. *)
Definition zero : ImageDefinition :=
  {| Name := ""; Inherits := ""; InheritsExternal := false |}.

#[global] Instance ImageDefinition_eq_dec : EqDecision ImageDefinition.
Proof. solve_decision. Defined.

End Images.
Export Images.

(** [map[string]images.ImageDefinition] *)
Abbreviation Definitions := (gmap string ImageDefinition).

(** A Go [error] value, identified with its message; [None] is [nil]. *)
Definition error : Type := string.

(** [imageDefinitions[key]] in its one-result form. *)
Definition at_key (imageDefinitions : Definitions) (key : string) : ImageDefinition :=
  default zero (imageDefinitions !! key).

(** [len(s) == 0] *)
Definition is_empty (s : string) : bool := Nat.eqb (String.length s) 0.

(** ** Collaborators that live outside [inspect.go] *)

(** Modelled from the spec: [images.BuildDefinition] is not in the source;
    its first result is taken as a reference that may be nil, so that both a
    struct and a pointer result are covered. *)
Inductive DefinitionRef : Type :=
| nil_ref
| ref (d : ImageDefinition).

(** Modelled from the spec: the loader, the path expansion and the
    deduplication are collaborators outside the source ([utils.ExpandPath],
    [images.BuildAllDefinitions], [images.BuildDefinition],
    [utils.RemoveDuplicates]) and are taken as given; each Go call returns
    all its results, the error included.  [range_order n m] is the order in
    which the Go runtime lets the [n]-th [range] statement of a run visit
    the map [m]: the language leaves it open and it may change from one
    statement to the next. *)
Record Env : Type := mkEnv {
  ExpandPath : string → string;
  BuildAllDefinitions : string → Definitions * option error;
  BuildDefinition : string → string → DefinitionRef * option error;
  RemoveDuplicates : list string → list string;
  range_order : nat → Definitions → list (string * ImageDefinition)
}.

(** The contract of [utils.RemoveDuplicates]: the same strings, each once. *)
Definition removes_duplicates (env : Env) : Prop :=
  ∀ elements,
    NoDup (RemoveDuplicates env elements) ∧
    ∀ x, x ∈ RemoveDuplicates env elements ↔ x ∈ elements.

(** A deduplication that keeps the first appearance of each string; the
    examples run with it. *)
Fixpoint first_occurrences_from (encountered : gset string) (elements : list string)
  : list string :=
  match elements with
  | [] => []
  | x :: rest =>
      if bool_decide (x ∈ encountered) then first_occurrences_from encountered rest
      else x :: first_occurrences_from ({[x]} ∪ encountered) rest
  end.

Definition first_occurrences (elements : list string) : list string :=
  first_occurrences_from ∅ elements.

(** Whatever the order, a [range] statement visits every entry of the map
    once. *)
Definition range_visits_all (env : Env) : Prop :=
  ∀ n (m : Definitions), range_order env n m ≡ₚ map_to_list m.

(** Modelled from the spec: [utils.Reverse] is not in the source; the
    sequence is reversed end to end, here with an accumulator. *)
Fixpoint Reverse_onto (input acc : list string) : list string :=
  match input with
  | [] => acc
  | x :: rest => Reverse_onto rest (x :: acc)
  end.

Definition Reverse (input : list string) : list string := Reverse_onto input [].

(** [sort.Sort(sort.Reverse(sort.StringSlice(results)))]: Go compares
    strings byte by byte, and [sort.Reverse] turns the order round, so [a]
    may stand before [b] when [b] is not above [a].  The sorted result is
    written as an insertion sort; it is the only descending arrangement there
    is (see [sort_desc_unique]). *)
Definition before_desc (a b : string) : bool := String.leb b a.

Fixpoint insert_desc (x : string) (sorted : list string) : list string :=
  match sorted with
  | [] => [x]
  | y :: rest => if before_desc x y then x :: y :: rest else y :: insert_desc x rest
  end.

Definition sort_desc (results : list string) : list string :=
  foldr insert_desc [] results.

(** [fmt.Errorf("Image %s doesn't exist", name)] *)
Definition not_exist (name : string) : error :=
  String.append "Image " (String.append name " doesn't exist").

(** ** [parents] *)

(** The body of [for finished != true]; one unit of fuel is one turn of the
    loop, [None] is a loop that has not finished when the fuel is gone. *)
Fixpoint parents_loop (fuel : nat) (imageDefinitions : Definitions)
    (excludeExternal : bool) (current : ImageDefinition) (results : list string)
  : option (list string) :=
  match fuel with
  | O => None
  | S fuel' =>
      if InheritsExternal current then
        Some (if negb excludeExternal then results ++ [Inherits current] else results)
      else
        let current' := at_key imageDefinitions (Inherits current) in
        parents_loop fuel' imageDefinitions excludeExternal current'
          (results ++ [Name current'])
  end.

(** What a command leaves behind: the lines handed to [log.Println], in
    order, and the error it returns. *)
Record Outcome : Type := mkOutcome {
  printed : list string;
  returned : option error
}.

Definition parents (env : Env) (fuel : nat) (name imagesDir : string)
    (excludeExternal reverse : bool) : option Outcome :=
  if is_empty name then Some (mkOutcome [] (Some "Name is required"))
  else if is_empty imagesDir then Some (mkOutcome [] (Some "Images directory is required"))
  else
    let imagesDir := ExpandPath env imagesDir in
    let '(imageDefinitions, err) := BuildAllDefinitions env imagesDir in
    match err with
    | Some e => Some (mkOutcome [] (Some e))
    | None =>
        match imageDefinitions !! name with
        | None => Some (mkOutcome [] (Some (not_exist name)))
        | Some current =>
            match parents_loop fuel imageDefinitions excludeExternal current [] with
            | None => None
            | Some results =>
                let results := if reverse then Reverse results else results in
                Some (mkOutcome results None)
            end
        end
    end.

(** ** [children] *)

(** The body of [for _, imageDefinition := range imageDefinitions] in
    [children], over the entries in the order the runtime chose. *)
Definition children_scan (current : ImageDefinition)
    (entries : list (string * ImageDefinition)) : list string :=
  fold_left
    (λ results entry,
       let imageDefinition := entry.2 in
       if String.eqb (Inherits imageDefinition) (Name current)
       then results ++ [Name imageDefinition] else results)
    entries [].

Definition children (env : Env) (name imagesDir : string) (reverse : bool) : Outcome :=
  if is_empty name then mkOutcome [] (Some "Name is required")
  else if is_empty imagesDir then mkOutcome [] (Some "Images directory is required")
  else
    let imagesDir := ExpandPath env imagesDir in
    let '(imageDefinitions, err) := BuildAllDefinitions env imagesDir in
    match err with
    | Some e => mkOutcome [] (Some e)
    | None =>
        match imageDefinitions !! name with
        | None => mkOutcome [] (Some (not_exist name))
        | Some current =>
            let results := children_scan current (range_order env 0 imageDefinitions) in
            let results := if reverse then sort_desc results else results in
            mkOutcome results err
        end
    end.

(** ** [tree] *)

Module Gotree.

(** [gotree.GTStructure]: a label and the sub-trees below it. *)
Inductive GTStructure : Type :=
| mkGT (name : string) (items : list GTStructure).

Definition Name (node : GTStructure) : string :=
  match node with mkGT name _ => name end.

Definition Items (node : GTStructure) : list GTStructure :=
  match node with mkGT _ items => items end.

(** [node.Items = append(node.Items, child)] *)
Definition add (node child : GTStructure) : GTStructure :=
  mkGT (Name node) (Items node ++ [child]).

End Gotree.

(** A computation that runs [range] statements: the state is the number of
    them started so far, [None] is a recursion cut short by the fuel. *)
Definition Run (A : Type) : Type := nat → option (A * nat).

Definition ret {A} (a : A) : Run A := λ n, Some (a, n).

Definition bind {A B} (c : Run A) (k : A → Run B) : Run B :=
  λ n, match c n with
       | None => None
       | Some (a, n') => k a n'
       end.

#[global] Instance Run_ret : MRet Run := @ret.
#[global] Instance Run_bind : MBind Run := λ A B k c, bind c k.

Definition range (env : Env) (m : Definitions) : Run (list (string * ImageDefinition)) :=
  λ n, Some (range_order env n m, S n).

(** A [for ... range] loop over [entries] that updates [s]. *)
Fixpoint for_each {A St} (body : St → A → Run St) (entries : list A) (s : St) : Run St :=
  match entries with
  | [] => ret s
  | x :: rest => s' ← body s x; for_each body rest s'
  end.

(** [buildTreeRecursively]; the fuel bounds the depth of the recursion. *)
Fixpoint buildTreeRecursively (env : Env) (fuel : nat)
    (parentDefinition : ImageDefinition) (imageDefinitions : Definitions)
  : Run (list Gotree.GTStructure) :=
  match fuel with
  | O => λ _, None
  | S fuel' =>
      entries ← range env imageDefinitions;
      for_each
        (λ children entry,
           let childImageDefinition := entry.2 in
           if String.eqb (Inherits childImageDefinition) (Name parentDefinition) then
             items ← buildTreeRecursively env fuel' childImageDefinition imageDefinitions;
             ret (children ++ [Gotree.mkGT (Name childImageDefinition) items])
           else ret children)
        entries []
  end.

(** The first loop of [tree]: the [Inherits] of every external entry. *)
Definition external_scan (entries : list (string * ImageDefinition)) : list string :=
  fold_left
    (λ externalImages entry,
       let imageDefinition := entry.2 in
       if InheritsExternal imageDefinition
       then externalImages ++ [Inherits imageDefinition] else externalImages)
    entries [].

(** The node built for one root label: the inner loop of [tree]. *)
Definition external_node (env : Env) (fuel : nat) (imageDefinitions : Definitions)
    (externalImage : string) : Run Gotree.GTStructure :=
  entries ← range env imageDefinitions;
  for_each
    (λ externalImageNode entry,
       let imageDefinition := entry.2 in
       if InheritsExternal imageDefinition
          && String.eqb (Inherits imageDefinition) externalImage then
         items ← buildTreeRecursively env fuel imageDefinition imageDefinitions;
         ret (Gotree.add externalImageNode (Gotree.mkGT (Name imageDefinition) items))
       else ret externalImageNode)
    entries (Gotree.mkGT externalImage []).

(** The root node handed to [gotree.PrintTree]. *)
Definition tree_root (env : Env) (fuel : nat) (imageDefinitions : Definitions)
  : Run Gotree.GTStructure :=
  entries ← range env imageDefinitions;
  let externalImages := external_scan entries in
  let externalImages := RemoveDuplicates env externalImages in
  for_each
    (λ rootNode externalImage,
       externalImageNode ← external_node env fuel imageDefinitions externalImage;
       ret (Gotree.add rootNode externalImageNode))
    externalImages (Gotree.mkGT "" []).

(** What [tree] leaves behind: the tree it printed, if any, and the error
    it returns. *)
Record TreeOutcome : Type := mkTreeOutcome {
  drawn : option Gotree.GTStructure;
  tree_returned : option error
}.

Definition tree (env : Env) (fuel : nat) (imagesDir : string) : option TreeOutcome :=
  if is_empty imagesDir
  then Some (mkTreeOutcome None (Some "Images directory is required"))
  else
    let imagesDir := ExpandPath env imagesDir in
    let '(imageDefinitions, err) := BuildAllDefinitions env imagesDir in
    match err with
    | Some e => Some (mkTreeOutcome None (Some e))
    | None =>
        match tree_root env fuel imageDefinitions 0 with
        | None => None
        | Some (rootNode, _) => Some (mkTreeOutcome (Some rootNode) None)
        end
    end.

(** ** [inspect] *)

(** How a run of the plain [inspect] action ends: it returns, or the
    dereference of a nil result stops it with a run-time panic. *)
Inductive Ending : Type :=
| returns (o : Outcome)
| panics (o : list string).

Definition inspect (env : Env) (name imagesDir : string) : Ending :=
  if is_empty name then returns (mkOutcome [] (Some "Name is required"))
  else if is_empty imagesDir
  then returns (mkOutcome [] (Some "Images directory is required"))
  else
    let imagesDir := ExpandPath env imagesDir in
    let '(imageDefinition, err) := BuildDefinition env name imagesDir in
    match imageDefinition with
    | nil_ref => panics []
    | ref d => returns (mkOutcome [Name d] err)
    end.

(** ** The inheritance graph, as the specification describes it *)

(** [k] inherits from the local definition [k']. *)
Definition parent_step (m : Definitions) (k k' : string) : Prop :=
  ∃ r, m !! k = Some r ∧ InheritsExternal r = false ∧ k' = Inherits r.

(** Every record is stored under its own name. *)
Definition keyed (m : Definitions) : Prop :=
  ∀ k r, m !! k = Some r → Name r = k.

(** Every parent reference that is not external names a record of the set. *)
Definition resolved (m : Definitions) : Prop :=
  ∀ k r, m !! k = Some r → InheritsExternal r = false → is_Some (m !! Inherits r).

(** An external parent reference names nothing in the set. *)
Definition external_outside (m : Definitions) : Prop :=
  ∀ k r, m !! k = Some r → InheritsExternal r = true → m !! Inherits r = None.

(** No definition is its own ancestor. *)
Definition acyclic (m : Definitions) : Prop :=
  ∀ k, ¬ tc (parent_step m) k k.

(** The chain that starts at [name] runs into a cycle. *)
Definition cyclic_from (m : Definitions) (name : string) : Prop :=
  ∃ k, rtc (parent_step m) name k ∧ tc (parent_step m) k k.

(** The number of parent references between [k] and its external root, the
    reference to the root included. *)
Inductive depth_of (m : Definitions) : string → nat → Prop :=
| depth_external k r :
    m !! k = Some r → InheritsExternal r = true → depth_of m k 1
| depth_local k r d :
    m !! k = Some r → InheritsExternal r = false →
    depth_of m (Inherits r) d → depth_of m k (S d).

(** The ancestry of [k]: the names of its local ancestors, nearest first,
    and the external label the chain ends in. *)
Inductive ancestors (m : Definitions) : string → list string → string → Prop :=
| ancestors_external k r :
    m !! k = Some r → InheritsExternal r = true →
    ancestors m k [] (Inherits r)
| ancestors_local k r r' chain label :
    m !! k = Some r → InheritsExternal r = false →
    m !! Inherits r = Some r' →
    ancestors m (Inherits r) chain label →
    ancestors m k (Name r' :: chain) label.

(** The records that name [target] as their parent, external or not. *)
Definition inherits_from (target : string) (entry : string * ImageDefinition) : Prop :=
  Inherits entry.2 = target.

#[global] Instance inherits_from_dec target entry : Decision (inherits_from target entry).
Proof. unfold inherits_from. apply _. Defined.

(** The records whose parent is the external label [label]. *)
Definition external_child (label : string) (entry : string * ImageDefinition) : Prop :=
  InheritsExternal entry.2 = true ∧ Inherits entry.2 = label.

#[global] Instance external_child_dec label entry : Decision (external_child label entry).
Proof. unfold external_child. apply _. Defined.

(** [child] is a record that [buildTreeRecursively] attaches below the
    record stored at [k]. *)
Definition child_step (m : Definitions) (k child : string) : Prop :=
  ∃ p c, m !! k = Some p ∧ m !! child = Some c ∧ Inherits c = Name p.

(** No record is attached below itself, however deep. *)
Definition tree_acyclic (m : Definitions) : Prop :=
  ∀ k, ¬ tc (child_step m) k k.

(** The external labels that the records of the set refer to. *)
Definition external_labels (m : Definitions) : gset string :=
  list_to_set ((Inherits ∘ snd) <$>
               filter (λ entry, InheritsExternal entry.2 = true) (map_to_list m)).

(** The three definitions of the specification's example, and a loader that
    yields them. *)
Module Example.

Definition A : ImageDefinition := mkImageDefinition "A" "base" true.
Definition B : ImageDefinition := mkImageDefinition "B" "A" false.
Definition C : ImageDefinition := mkImageDefinition "C" "A" false.

Definition set : Definitions := <["A" := A]> (<["B" := B]> (<["C" := C]> ∅)).

(** A runtime that walks a map forwards and backwards in turn. *)
Definition alternating (n : nat) (m : Definitions) : list (string * ImageDefinition) :=
  if Nat.even n then map_to_list m else reverse (map_to_list m).

(** A loader that yields [definitions] and finds no single definition; its
    failure comes with [found] as the first result. *)
Definition loader (definitions : Definitions) (found : DefinitionRef) : Env :=
  {| ExpandPath := λ path, path;
     BuildAllDefinitions := λ _, (definitions, None);
     BuildDefinition := λ _ _, (found, Some "unreadable");
     RemoveDuplicates := first_occurrences;
     range_order := alternating |}.

Definition env : Env := loader set nil_ref.

(** Two definitions that inherit from each other. *)
Definition P : ImageDefinition := mkImageDefinition "P" "Q" false.
Definition Q : ImageDefinition := mkImageDefinition "Q" "P" false.
Definition loop : Definitions := <["P" := P]> (<["Q" := Q]> ∅).

(** A definition whose external parent bears the name of a local one. *)
Definition X : ImageDefinition := mkImageDefinition "X" "base" true.
Definition Y : ImageDefinition := mkImageDefinition "Y" "X" true.
Definition shadow : Definitions := <["X" := X]> (<["Y" := Y]> ∅).

(** A root whose external parent bears its own name, and a definition that
    inherits from it. *)
Definition W : ImageDefinition := mkImageDefinition "W" "W" true.
Definition Z : ImageDefinition := mkImageDefinition "Z" "W" false.
Definition namesake : Definitions := <["W" := W]> (<["Z" := Z]> ∅).

End Example.

(** ** The command line *)

Module Cli.

(** What the actions read of a [cli.Context]: the positional arguments and
    the flags as they were given; a string flag that was not given reads as
    the [Value] declared for it, a boolean flag as [false]. *)
Record Context : Type := mkContext {
  Args : list string;
  images_dir : option string;
  exclude_external : bool;
  reverse_flag : bool
}.

(** [cli.NewExitError(err, code)] *)
Record ExitError : Type := NewExitError {
  message : error;
  exitCode : Z
}.

(** [c.Args().First()] *)
Definition First (args : list string) : string :=
  match args with
  | [] => ""
  | arg :: _ => arg
  end.

(** [c.String("images-dir")], declared with [Value: "."] *)
Definition String_images_dir (c : Context) : string := default "." (images_dir c).

End Cli.

(** What an action leaves behind: the lines logged and the error it hands to
    the [cli] library, [None] for [nil]. *)
Record ActionOutcome : Type := mkActionOutcome {
  logged : list string;
  exit : option Cli.ExitError
}.

(** [if err != nil { return cli.NewExitError(err, 1) }; return nil] *)
Definition exit_of (err : option error) : option Cli.ExitError :=
  match err with
  | Some e => Some (Cli.NewExitError e 1)
  | None => None
  end.

(** [len(c.Args()) != 1] *)
Definition wrong_arity (c : Cli.Context) : bool :=
  negb (Nat.eqb (length (Cli.Args c)) 1).

Definition unexpected_arguments : ActionOutcome :=
  mkActionOutcome [] (Some (Cli.NewExitError "Unexpected arguements" 1)).

(** The [Action] of [parentsCommand]. *)
Definition parentsAction (env : Env) (fuel : nat) (c : Cli.Context) : option ActionOutcome :=
  if wrong_arity c then Some unexpected_arguments
  else
    match parents env fuel (Cli.First (Cli.Args c)) (Cli.String_images_dir c)
            (Cli.exclude_external c) (Cli.reverse_flag c) with
    | None => None
    | Some out => Some (mkActionOutcome (printed out) (exit_of (returned out)))
    end.

(** The [Action] of [childrenCommand]. *)
Definition childrenAction (env : Env) (c : Cli.Context) : ActionOutcome :=
  if wrong_arity c then unexpected_arguments
  else
    let out := children env (Cli.First (Cli.Args c)) (Cli.String_images_dir c)
                 (Cli.reverse_flag c) in
    mkActionOutcome (printed out) (exit_of (returned out)).

(** The [Action] of [treeCommand]: the tree printed, if any, and the error. *)
Definition treeAction (env : Env) (fuel : nat) (c : Cli.Context)
  : option (option Gotree.GTStructure * option Cli.ExitError) :=
  match tree env fuel (Cli.String_images_dir c) with
  | None => None
  | Some out => Some (drawn out, exit_of (tree_returned out))
  end.

(** ** Trees, as they are read *)




(** A record with an external parent leads, by way of what [tree] attaches
    below it, to a record that is attached below itself. *)
Definition tree_reaches_cycle (m : Definitions) : Prop :=
  ∃ k0 r0 k,
    m !! k0 = Some r0 ∧ InheritsExternal r0 = true ∧
    rtc (child_step m) k0 k ∧ tc (child_step m) k k.

(** From [k] the recursion of [tree] comes to a record that is attached
    below itself. *)
Definition leads_to_cycle (m : Definitions) (k : string) : Prop :=
  ∃ c, rtc (child_step m) k c ∧ tc (child_step m) c c.

(** [k] is a record with an external parent or is attached somewhere below
    one. *)
Definition below_external (m : Definitions) (k : string) : Prop :=
  ∃ k0 r0, m !! k0 = Some r0 ∧ InheritsExternal r0 = true ∧ rtc (child_step m) k0 k.

(** Further sets and a second runtime to run the commands on. *)
Module Scenario.

(** A definition whose parent is in no file. *)
Definition D : ImageDefinition := mkImageDefinition "D" "gone" false.
Definition orphan : Definitions := <["D" := D]> ∅.

(** A runtime that walks every map backwards. *)
Definition backwards (n : nat) (m : Definitions) : list (string * ImageDefinition) :=
  reverse (map_to_list m).

Definition backwards_loader (definitions : Definitions) : Env :=
  {| ExpandPath := λ path, path;
     BuildAllDefinitions := λ _, (definitions, None);
     BuildDefinition := λ _ _, (nil_ref, Some "unreadable");
     RemoveDuplicates := first_occurrences;
     range_order := backwards |}.

(** A loader that cannot read the directory. *)
Definition failing_loader : Env :=
  {| ExpandPath := λ path, path;
     BuildAllDefinitions := λ _, (∅, Some "unreadable");
     BuildDefinition := λ _ _, (nil_ref, Some "unreadable");
     RemoveDuplicates := first_occurrences;
     range_order := backwards |}.

End Scenario.

(** * Properties *)

(** ** Strings and the helpers *)

Lemma Reverse_onto_spec (input acc : list string) :
  Reverse_onto input acc = reverse input ++ acc.
Proof.
  revert acc. induction input as [|x input IH]; intros acc; simpl; [done|].
  rewrite IH reverse_cons -assoc. done.
Qed.

Lemma Reverse_reverse (input : list string) : Reverse input = reverse input.
Proof. unfold Reverse. rewrite Reverse_onto_spec. apply app_nil_r. Qed.

(** ** The chain walk of [parents] *)

Section chain.
Context (m : Definitions).

Lemma at_key_lookup k r : m !! k = Some r → at_key m k = r.
Proof. unfold at_key. by intros ->. Qed.

(** One turn of the loop. *)
Lemma parents_loop_S (fuel : nat) excl current acc :
  parents_loop (S fuel) m excl current acc
  = if InheritsExternal current
    then Some (if negb excl then acc ++ [Inherits current] else acc)
    else parents_loop fuel m excl (at_key m (Inherits current))
           (acc ++ [Name (at_key m (Inherits current))]).
Proof. done. Qed.

(** More fuel does not change a finished walk. *)
Lemma parents_loop_mono (fuel fuel' : nat) excl current acc res :
  (fuel ≤ fuel')%nat →
  parents_loop fuel m excl current acc = Some res →
  parents_loop fuel' m excl current acc = Some res.
Proof.
  revert fuel' current acc.
  induction fuel as [|fuel IH]; intros fuel' current acc Hle; simpl; [done|].
  destruct fuel' as [|fuel']; [lia|]. simpl.
  destruct (InheritsExternal current); [done|].
  apply IH. lia.
Qed.

(** The walk follows the ancestry: it takes one turn per ancestor and one
    for the root, and collects the ancestors, then the root unless it is
    excluded. *)
Lemma parents_loop_ancestors k chain label :
  ancestors m k chain label →
  ∀ r acc excl, m !! k = Some r →
    (∀ fuel : nat, (fuel ≤ length chain)%nat → parents_loop fuel m excl r acc = None) ∧
    parents_loop (S (length chain)) m excl r acc
    = Some (acc ++ chain ++ (if excl then [] else [label])).
Proof.
  induction 1 as [k r Hk Hext|k r r1 chain label Hk Hext Hk1 Hanc IH];
    intros r' acc excl Hr'; assert (r' = r) as -> by congruence.
  - split.
    + intros fuel Hle. by assert (fuel = 0) as -> by (simpl in Hle; lia).
    + simpl. rewrite Hext. destruct excl; simpl; by rewrite ?app_nil_r.
  - destruct (IH r1 (acc ++ [Name r1]) excl Hk1) as [Hnone Hsome]. split.
    + intros [|fuel] Hle; [done|]. simpl in *.
      rewrite Hext (at_key_lookup _ _ Hk1). apply Hnone. lia.
    + rewrite parents_loop_S Hext (at_key_lookup _ _ Hk1) Hsome.
      by rewrite -assoc.
Qed.

Lemma depth_of_ancestors k d :
  depth_of m k d ↔ ∃ chain label, ancestors m k chain label ∧ d = S (length chain).
Proof.
  split.
  - induction 1 as [k r Hk Hext|k r d Hk Hext Hd (chain & label & Hanc & ->)].
    + exists [], (Inherits r). split; [by eapply ancestors_external|done].
    + inversion Hanc as [? r1 Hk1|? r1 ? ? ? Hk1]; subst.
      * exists [Name r1], (Inherits r1). split; [|done].
        eapply ancestors_local; eauto.
      * eexists (Name r1 :: _ :: _), label. split; [|done].
        eapply ancestors_local; eauto.
  - intros (chain & label & Hanc & ->).
    induction Hanc; [by eapply depth_external|by eapply depth_local].
Qed.

(** The local ancestors are records of the set, the root is not. *)
Lemma ancestors_local_names k chain label :
  keyed m → ancestors m k chain label → Forall (λ x, is_Some (m !! x)) chain.
Proof.
  intros Hkeyed. induction 1 as [|k r r1 chain label Hk Hext Hk1 Hanc IH]; [done|].
  constructor; [|done]. rewrite (Hkeyed _ _ Hk1). eauto.
Qed.

Lemma ancestors_root_outside k chain label :
  external_outside m → ancestors m k chain label → m !! label = None.
Proof. intros Hout. induction 1; eauto. Qed.

Lemma tc_first {A} (R : relation A) x z : tc R x z → ∃ y, R x y ∧ rtc R y z.
Proof.
  destruct 1 as [x y HR|x y z HR Hrest]; exists y; split; try done.
  by apply tc_rtc.
Qed.

(** A walk caught in a cycle uses up any fuel. *)
Lemma cyclic_from_step k :
  cyclic_from m k →
  ∃ r, m !! k = Some r ∧ InheritsExternal r = false ∧ cyclic_from m (Inherits r).
Proof.
  intros (c & Hreach & Hcycle).
  destruct Hreach as [k|k k' c (r & Hk & Hext & ->) Hrest].
  - destruct (tc_first _ _ _ Hcycle) as (k' & (r & Hk & Hext & ->) & Hback).
    exists r. repeat split; [done..|]. by exists k.
  - exists r. repeat split; [done..|]. by exists c.
Qed.

Lemma parents_loop_cyclic (fuel : nat) k r excl acc :
  cyclic_from m k → m !! k = Some r →
  parents_loop fuel m excl r acc = None.
Proof.
  revert k r acc. induction fuel as [|fuel IH]; intros k r acc Hcyc Hk; [done|].
  destruct (cyclic_from_step _ Hcyc) as (r0 & Hk0 & Hext & Hnext).
  assert (r0 = r) as -> by congruence.
  destruct (cyclic_from_step _ Hnext) as (r1 & Hk1 & _ & _).
  simpl. rewrite Hext (at_key_lookup _ _ Hk1). by eapply IH.
Qed.

End chain.

(** ** Chains of an acyclic set end, within as many turns as it has records *)

Section termination.
Context (m : Definitions).
Hypothesis Hresolved : resolved m.
Hypothesis Hacyclic : acyclic m.

(** [unvisited] holds the keys the walk has not been through; whatever it
    has been through leads to the current key. *)
Lemma ancestors_exist_from (n : nat) (unvisited : gset string) k :
  (size unvisited ≤ n)%nat → k ∈ unvisited → is_Some (m !! k) →
  (∀ v, is_Some (m !! v) → v ∉ unvisited → tc (parent_step m) v k) →
  ∃ chain label, ancestors m k chain label ∧ (S (length chain) ≤ size unvisited)%nat.
Proof.
  revert unvisited k.
  induction n as [|n IH]; intros unvisited k Hsize Hin [r Hk] Hvisited.
  { apply Nat.le_0_r, size_empty_inv in Hsize. set_solver. }
  assert (size unvisited = S (size (unvisited ∖ {[k]}))) as Hone.
  { rewrite size_difference; [set_solver|]. rewrite size_singleton.
    assert (size unvisited ≠ 0); [|lia].
    intros Hzero%size_empty_inv. set_solver. }
  destruct (InheritsExternal r) eqn:Hext.
  { exists [], (Inherits r). split; [by eapply ancestors_external|simpl; lia]. }
  destruct (Hresolved _ _ Hk Hext) as [r' Hk'].
  assert (parent_step m k (Inherits r)) as Hstep by by exists r.
  destruct (IH (unvisited ∖ {[k]}) (Inherits r)) as (chain & label & Hanc & Hlen).
  - lia.
  - apply elem_of_difference. split.
    + destruct (decide (Inherits r ∈ unvisited)) as [|Hout]; [done|].
      destruct (Hacyclic k). eapply tc_l; [done|]. apply Hvisited; eauto.
    + intros Hsame%elem_of_singleton. destruct (Hacyclic k).
      apply tc_once. by rewrite Hsame in Hstep.
  - eauto.
  - intros v Hv Hout. destruct (decide (v = k)) as [->|Hne]; [by apply tc_once|].
    eapply tc_r; [|done]. apply Hvisited; [done|]. set_solver.
  - exists (Name r' :: chain), label. split; [by eapply ancestors_local|].
    simpl. lia.
Qed.

Lemma ancestors_exist k :
  is_Some (m !! k) →
  ∃ chain label, ancestors m k chain label ∧ (S (length chain) ≤ size m)%nat.
Proof.
  intros Hk. rewrite -(size_dom (D:=gset string)).
  apply (ancestors_exist_from (size (dom m))); [done| |done|].
  - by apply elem_of_dom.
  - intros v Hv Hout. by apply elem_of_dom in Hv.
Qed.

End termination.

(** ** The scans of [children] and [tree] *)

Lemma scan_filter {A} (P : A → bool) (f : A → string) (entries : list A) (acc : list string) :
  fold_left (λ results entry, if P entry then results ++ [f entry] else results) entries acc
  = acc ++ (f <$> List.filter P entries).
Proof.
  revert acc. induction entries as [|entry entries IH]; intros acc; simpl.
  - by rewrite app_nil_r.
  - rewrite IH. destruct (P entry); [|done]. by rewrite -assoc.
Qed.

Lemma filter_bool_decide {A} (P : A → Prop) `{∀ x, Decision (P x)} (b : A → bool)
    (entries : list A) :
  (∀ x, b x = true ↔ P x) → List.filter b entries = filter P entries.
Proof.
  intros Hb. induction entries as [|x entries IH]; [done|]. simpl.
  rewrite filter_cons IH. destruct (decide (P x)) as [HP|HP].
  - by apply Hb in HP as ->.
  - destruct (b x) eqn:Hbx; [|done]. by apply Hb in Hbx.
Qed.

Lemma children_scan_filter current entries :
  children_scan current entries
  = (Name ∘ snd) <$> filter (inherits_from (Name current)) entries.
Proof.
  unfold children_scan.
  rewrite (scan_filter (λ entry, String.eqb (Inherits entry.2) (Name current)) (Name ∘ snd)).
  simpl. f_equal. apply filter_bool_decide. intros entry. apply String.eqb_eq.
Qed.

Lemma external_scan_filter entries :
  external_scan entries
  = (Inherits ∘ snd) <$> filter (λ entry, InheritsExternal entry.2 = true) entries.
Proof.
  unfold external_scan.
  rewrite (scan_filter (λ entry, InheritsExternal entry.2) (Inherits ∘ snd)).
  simpl. f_equal. by apply filter_bool_decide.
Qed.

(** ** Sorting *)

Lemma insert_desc_perm x sorted : insert_desc x sorted ≡ₚ x :: sorted.
Proof.
  induction sorted as [|y sorted IH]; simpl; [done|].
  destruct (before_desc x y); [done|]. rewrite IH. apply Permutation_swap.
Qed.

Lemma sort_desc_perm results : sort_desc results ≡ₚ results.
Proof.
  induction results as [|x results IH]; simpl; [done|].
  by rewrite insert_desc_perm IH.
Qed.

Lemma before_desc_total a b : before_desc a b = false → before_desc b a = true.
Proof.
  unfold before_desc. intros Hab.
  destruct (String.leb_total a b) as [H|H]; [done|congruence].
Qed.

Lemma insert_desc_sorted x sorted :
  Sorted (λ a b, before_desc a b = true) sorted →
  Sorted (λ a b, before_desc a b = true) (insert_desc x sorted).
Proof.
  induction 1 as [|y sorted Hsorted IH Hhd]; simpl; [by repeat constructor|].
  destruct (before_desc x y) eqn:Hxy.
  - by repeat constructor.
  - constructor; [done|].
    destruct Hhd as [|z sorted Hyz]; simpl.
    + constructor. by apply before_desc_total.
    + destruct (before_desc x z); constructor; [by apply before_desc_total|done].
Qed.

Lemma sort_desc_sorted results :
  Sorted (λ a b, before_desc a b = true) (sort_desc results).
Proof.
  induction results as [|x results IH]; simpl; [constructor|].
  by apply insert_desc_sorted.
Qed.

(** The byte-wise order on strings is transitive. *)
Lemma string_leb_trans a b c :
  String.leb a b = true → String.leb b c = true → String.leb a c = true.
Proof.
  unfold String.leb. revert b c.
  induction a as [|x a IH]; intros [|y b] [|z c]; simpl; try done.
  unfold Ascii.compare.
  destruct (N.compare_spec (N_of_ascii x) (N_of_ascii y)) as [Hxy|Hxy|Hxy];
    destruct (N.compare_spec (N_of_ascii y) (N_of_ascii z)) as [Hyz|Hyz|Hyz];
    try done.
  - rewrite Hxy Hyz N.compare_refl. apply IH.
  - intros _ _. by rewrite Hxy (proj2 (N.compare_lt_iff _ _) Hyz).
  - intros _ _. by rewrite -Hyz (proj2 (N.compare_lt_iff _ _) Hxy).
  - intros _ _. by rewrite (proj2 (N.compare_lt_iff _ _) (N.lt_trans _ _ _ Hxy Hyz)).
Qed.

Lemma sort_desc_strongly_sorted results :
  StronglySorted (λ a b, String.leb b a = true) (sort_desc results).
Proof.
  apply Sorted_StronglySorted; [|apply sort_desc_sorted].
  intros a b c Hab Hbc. by eapply string_leb_trans.
Qed.

(** A sequence has one descending arrangement only, so what
    [sort.Sort] leaves does not depend on how it sorts. *)
Lemma descending_unique (l l' : list string) :
  StronglySorted (λ a b, String.leb b a = true) l →
  StronglySorted (λ a b, String.leb b a = true) l' →
  l ≡ₚ l' → l = l'.
Proof.
  intros Hl. revert l'.
  induction Hl as [|x l Hl IH Hx]; intros l' Hl' Hperm.
  - by apply Permutation_nil in Hperm.
  - destruct Hl' as [|y l' Hl' Hy]; [by apply Permutation_sym, Permutation_nil in Hperm|].
    assert (x = y) as ->.
    { assert (x ∈ y :: l') as Hxin by (rewrite -Hperm; left).
      assert (y ∈ x :: l) as Hyin by (rewrite Hperm; left).
      apply elem_of_cons in Hxin as [|Hxin]; [done|].
      apply elem_of_cons in Hyin as [|Hyin]; [done|].
      rewrite Forall_forall in Hx. rewrite Forall_forall in Hy.
      apply String.leb_antisym; [by apply Hy|by apply Hx]. }
    f_equal. apply IH; [done|]. by eapply Permutation_cons_inv.
Qed.

Lemma sort_desc_unique results sorted :
  StronglySorted (λ a b, String.leb b a = true) sorted →
  sorted ≡ₚ results → sorted = sort_desc results.
Proof.
  intros Hsorted Hperm. apply descending_unique; [done|apply sort_desc_strongly_sorted|].
  by rewrite sort_desc_perm.
Qed.

(** ** Loops that run [range] statements *)

Lemma bind_Some {A B} (c : Run A) (k : A → Run B) n b n'' :
  (c ≫= k) n = Some (b, n'') ↔ ∃ a n', c n = Some (a, n') ∧ k a n' = Some (b, n'').
Proof.
  unfold mbind, Run_bind, bind. destruct (c n) as [[a n']|]; split.
  - intros Hk. by exists a, n'.
  - by intros (a' & n1 & [= -> ->] & Hk).
  - done.
  - by intros (a' & n1 & [=] & _).
Qed.

(** A property of what has been visited and of the state, kept by every
    turn, holds when the loop is over. *)
Lemma for_each_inv {A St} (body : St → A → Run St) (I : list A → St → Prop) entries :
  (∀ visited x s n s' n',
     x ∈ entries → I visited s → body s x n = Some (s', n') → I (visited ++ [x]) s') →
  ∀ visited s n s' n',
    I visited s → for_each body entries s n = Some (s', n') → I (visited ++ entries) s'.
Proof.
  induction entries as [|x entries IH]; intros Hturn visited s n s' n' HI Hrun.
  - injection Hrun as <- <-. by rewrite app_nil_r.
  - simpl in Hrun. apply bind_Some in Hrun as (s1 & n1 & Hbody & Hrest).
    rewrite (assoc_L _ visited [x] entries : visited ++ x :: entries = _).
    eapply IH; [|by eapply Hturn; [left|..]|done].
    intros ?????? Hin. apply Hturn. by right.
Qed.

(** A loop whose every turn comes back comes back. *)
Lemma for_each_total {A St} (body : St → A → Run St) entries :
  (∀ x s n, x ∈ entries → is_Some (body s x n)) →
  ∀ s n, is_Some (for_each body entries s n).
Proof.
  induction entries as [|x entries IH]; intros Hturn s n; simpl; [done|].
  unfold mbind, Run_bind, bind.
  destruct (Hturn x s n) as [[s1 n1] ->]; [by left|].
  apply IH. intros ????. apply Hturn. by right.
Qed.

(** ** The forest of [tree] *)

Section forest.
Context (env : Env) (m : Definitions).
Hypothesis Hrange : range_visits_all env.

Lemma range_lookup n k r : (k, r) ∈ range_order env n m ↔ m !! k = Some r.
Proof. rewrite (Hrange n m). apply elem_of_map_to_list. Qed.

(** The node of a root carries its label, and below it one node per
    external record that refers to the label. *)
Lemma external_node_items fuel label n node n' :
  external_node env fuel m label n = Some (node, n') →
  Gotree.Name node = label ∧
  Gotree.Name <$> Gotree.Items node
  = (Name ∘ snd) <$> filter (external_child label) (range_order env n m).
Proof.
  unfold external_node. intros (entries & n1 & [= <- <-] & Hloop)%bind_Some.
  apply (for_each_inv _
    (λ visited node, Gotree.Name node = label ∧
       Gotree.Name <$> Gotree.Items node
       = (Name ∘ snd) <$> filter (external_child label) visited) _) with (visited := [])
    in Hloop; [done| |done].
  intros visited [k r] s n0 s' n0' _ [Hname Hitems] Hbody. simpl in Hbody.
  rewrite filter_app fmap_app -Hitems.
  destruct (InheritsExternal r) eqn:Hext; simpl in Hbody.
  - destruct (String.eqb_spec (Inherits r) label) as [Hlabel|Hlabel].
    + apply bind_Some in Hbody as (items & n2 & _ & [= <- _]).
      rewrite filter_cons_True; [done|]. simpl. by rewrite fmap_app.
    + injection Hbody as <- _.
      rewrite filter_cons_False; [by intros [_ ?]|]. by rewrite app_nil_r.
  - injection Hbody as <- _.
    rewrite filter_cons_False; [intros [? _]; simpl in *; congruence|].
    by rewrite app_nil_r.
Qed.

(** The root has an empty label and one node per label that
    [utils.RemoveDuplicates] keeps, in that order. *)
Lemma tree_root_items fuel n root n' :
  tree_root env fuel m n = Some (root, n') →
  Gotree.Name <$> Gotree.Items root
  = RemoveDuplicates env (external_scan (range_order env n m)) ∧
  Forall (λ node, ∃ n1,
      Gotree.Name <$> Gotree.Items node
      = (Name ∘ snd) <$> filter (external_child (Gotree.Name node))
                                (range_order env n1 m))
    (Gotree.Items root).
Proof.
  unfold tree_root. intros (entries & n1 & [= <- <-] & Hloop)%bind_Some.
  apply (for_each_inv _
    (λ visited root, Gotree.Name <$> Gotree.Items root = visited ∧
       Forall (λ node, ∃ n1,
           Gotree.Name <$> Gotree.Items node
           = (Name ∘ snd) <$> filter (external_child (Gotree.Name node))
                                     (range_order env n1 m))
         (Gotree.Items root)) _) with (visited := []) in Hloop; [done| |done].
  intros visited label s n0 s' n0' _ [Hnames Hnodes] Hbody.
  apply bind_Some in Hbody as (node & n2 & Hnode & [= <- _]).
  apply external_node_items in Hnode as [Hlabel Hitems]. simpl. split.
  - by rewrite fmap_app Hnames /= Hlabel.
  - apply Forall_app. split; [done|]. constructor; [|done].
    exists n0. by rewrite Hlabel.
Qed.

End forest.

Section forest_termination.
Context (env : Env) (m : Definitions).
Hypothesis Hrange : range_visits_all env.
Hypothesis Hacyclic : tree_acyclic m.

(** The recursion never comes back to a record it is below, so its depth
    stays within the records not yet on the path. *)
Lemma buildTreeRecursively_total (fuel : nat) (unvisited : gset string) k p :
  (size unvisited ≤ fuel)%nat → k ∈ unvisited → m !! k = Some p →
  (∀ v, is_Some (m !! v) → v ∉ unvisited → tc (child_step m) v k) →
  ∀ n, is_Some (buildTreeRecursively env fuel p m n).
Proof.
  revert unvisited k p.
  induction fuel as [|fuel IH]; intros unvisited k p Hsize Hin Hk Hvisited n.
  { apply Nat.le_0_r, size_empty_inv in Hsize. set_solver. }
  assert (size unvisited = S (size (unvisited ∖ {[k]}))) as Hone.
  { rewrite size_difference; [set_solver|]. rewrite size_singleton.
    assert (size unvisited ≠ 0); [|lia].
    intros Hzero%size_empty_inv. set_solver. }
  simpl. unfold mbind, Run_bind, bind, range.
  apply for_each_total. intros [k' c] children n0 Hentry. simpl.
  apply (range_lookup env m Hrange) in Hentry.
  destruct (String.eqb_spec (Inherits c) (Name p)) as [Hchild|]; [|done].
  assert (child_step m k k') as Hstep by by exists p, c.
  destruct (IH (unvisited ∖ {[k]}) k' c) with (n := n0) as [[items n1] ->]; [..|done].
  - lia.
  - apply elem_of_difference. split.
    + destruct (decide (k' ∈ unvisited)) as [|Hout]; [done|].
      destruct (Hacyclic k). eapply tc_l; [done|]. apply Hvisited; eauto.
    + intros Hsame%elem_of_singleton. destruct (Hacyclic k).
      apply tc_once. by rewrite Hsame in Hstep.
  - done.
  - intros v Hv Hout. destruct (decide (v = k)) as [->|Hne]; [by apply tc_once|].
    eapply tc_r; [|done]. apply Hvisited; [done|]. set_solver.
Qed.

Lemma external_node_total label n :
  is_Some (external_node env (size m) m label n).
Proof.
  unfold external_node, mbind, Run_bind, bind, range.
  apply for_each_total. intros [k r] node n0 Hentry. simpl.
  apply (range_lookup env m Hrange) in Hentry.
  destruct (InheritsExternal r && String.eqb (Inherits r) label); [|done].
  destruct (buildTreeRecursively_total (size m) (dom m) k r) with (n := n0)
    as [[items n1] ->]; [| | |by intros v ?%elem_of_dom|done].
  - by rewrite size_dom.
  - apply elem_of_dom. eauto.
  - done.
Qed.

Lemma tree_root_total n : is_Some (tree_root env (size m) m n).
Proof.
  unfold tree_root, mbind, Run_bind, bind, range.
  apply for_each_total. intros label root n0 _.
  by destruct (external_node_total label n0) as [[node n1] ->].
Qed.

End forest_termination.

(** ** Deduplication *)

Lemma first_occurrences_from_elem_of encountered elements x :
  x ∈ first_occurrences_from encountered elements ↔ x ∈ elements ∧ x ∉ encountered.
Proof.
  revert encountered. induction elements as [|y elements IH]; intros encountered; simpl.
  - set_solver.
  - case_bool_decide as Hy.
    + rewrite IH. set_solver.
    + rewrite elem_of_cons IH. destruct (decide (x = y)); set_solver.
Qed.

Lemma first_occurrences_from_NoDup encountered elements :
  NoDup (first_occurrences_from encountered elements).
Proof.
  revert encountered. induction elements as [|y elements IH]; intros encountered; simpl.
  - constructor.
  - case_bool_decide; [done|]. constructor; [|done].
    rewrite first_occurrences_from_elem_of. set_solver.
Qed.

(** ** The example sets *)

Lemma tc_ranked {A} (R : relation A) (rank : A → nat) :
  (∀ x y, R x y → (rank y < rank x)%nat) → ∀ x, ¬ tc R x x.
Proof.
  intros Hrank x Hcycle.
  assert (∀ a b, tc R a b → (rank b < rank a)%nat) as Hdown.
  { induction 1 as [a b HR|a b c HR _ IH]; [by apply Hrank|].
    apply Hrank in HR. lia. }
  apply Hdown in Hcycle. lia.
Qed.

(** Splits a lookup in a map written with inserts into its entries. *)
Ltac lookup_cases H :=
  repeat (apply lookup_insert_Some in H as [[<- <-]|[_ H]]);
  try (by rewrite lookup_empty in H).

Lemma alternating_visits_all definitions found :
  range_visits_all (Example.loader definitions found).
Proof.
  intros n m. simpl. unfold Example.alternating.
  destruct (Nat.even n); [done|]. apply reverse_Permutation.
Qed.

Lemma first_occurrences_removes_duplicates definitions found :
  removes_duplicates (Example.loader definitions found).
Proof.
  intros elements. simpl. unfold first_occurrences. split.
  - apply first_occurrences_from_NoDup.
  - intros x. rewrite first_occurrences_from_elem_of. set_solver.
Qed.

Lemma example_keyed : keyed Example.set.
Proof. intros k r Hk. unfold Example.set in Hk. lookup_cases Hk; done. Qed.

Lemma example_resolved : resolved Example.set.
Proof. intros k r Hk Hext. unfold Example.set in Hk. lookup_cases Hk; done. Qed.

Lemma example_external_outside : external_outside Example.set.
Proof. intros k r Hk Hext. unfold Example.set in Hk. lookup_cases Hk; done. Qed.

Lemma example_acyclic : acyclic Example.set.
Proof.
  unfold acyclic.
  apply (tc_ranked (parent_step Example.set) (λ k, if String.eqb k "A" then 0 else 1)).
  intros k k' (r & Hk & Hext & ->). unfold Example.set in Hk.
  lookup_cases Hk; simpl in *; done || lia.
Qed.

Lemma example_tree_acyclic : tree_acyclic Example.set.
Proof.
  unfold tree_acyclic.
  apply (tc_ranked (child_step Example.set) (λ k, if String.eqb k "A" then 1 else 0)).
  intros k k' (p & c & Hk & Hk' & Hchild). unfold Example.set in Hk, Hk'.
  lookup_cases Hk; lookup_cases Hk'; simpl in *; done || lia.
Qed.

Lemma example_loop_cyclic : cyclic_from Example.loop "P".
Proof.
  exists "P". split; [done|].
  apply tc_l with "Q"; [|apply tc_once]; eexists; (split; [reflexivity|done]).
Qed.


(** ** The commands once the set is loaded *)

Section loaded.
Context (env : Env) (name imagesDir : string) (m : Definitions).
Hypothesis Hname : is_empty name = false.
Hypothesis Hdir : is_empty imagesDir = false.
Hypothesis Hload : BuildAllDefinitions env (ExpandPath env imagesDir) = (m, None).

Lemma children_loaded reverse current :
  m !! name = Some current →
  children env name imagesDir reverse
  = mkOutcome (let results := children_scan current (range_order env 0 m) in
               if reverse then sort_desc results else results) None.
Proof. intros Hk. unfold children. by rewrite Hname Hdir Hload Hk. Qed.

Lemma children_missing reverse :
  m !! name = None →
  children env name imagesDir reverse = mkOutcome [] (Some (not_exist name)).
Proof. intros Hk. unfold children. by rewrite Hname Hdir Hload Hk. Qed.

Lemma parents_loaded fuel excl reverse current :
  m !! name = Some current →
  parents env fuel name imagesDir excl reverse
  = (λ results, mkOutcome (if reverse then Reverse results else results) None)
      <$> parents_loop fuel m excl current [].
Proof.
  intros Hk. unfold parents. rewrite Hname Hdir Hload Hk.
  by destruct (parents_loop fuel m excl current []).
Qed.

Lemma parents_missing fuel excl reverse :
  m !! name = None →
  parents env fuel name imagesDir excl reverse
  = Some (mkOutcome [] (Some (not_exist name))).
Proof. intros Hk. unfold parents. by rewrite Hname Hdir Hload Hk. Qed.

Lemma tree_loaded fuel :
  tree env fuel imagesDir
  = (λ run, mkTreeOutcome (Some run.1) None) <$> tree_root env fuel m 0.
Proof.
  unfold tree. rewrite Hdir Hload.
  by destruct (tree_root env fuel m 0) as [[root n]|].
Qed.

End loaded.

(** What [children] prints when it succeeds, whatever the order of the scan. *)
Lemma children_printed env name imagesDir reverse m current :
  range_visits_all env →
  is_empty name = false → is_empty imagesDir = false →
  BuildAllDefinitions env (ExpandPath env imagesDir) = (m, None) →
  m !! name = Some current →
  printed (children env name imagesDir reverse)
  ≡ₚ (Name ∘ snd) <$> filter (inherits_from (Name current)) (map_to_list m).
Proof.
  intros Hrange Hname Hdir Hload Hk.
  rewrite (children_loaded _ _ _ _ Hname Hdir Hload _ _ Hk). simpl.
  rewrite -(Hrange 0 m) -children_scan_filter.
  destruct reverse; [apply sort_desc_perm|done].
Qed.

(** In a set that is keyed and keeps its external labels outside, whatever
    [tree] attaches below a record inherits from it, so an acyclic set gives
    a recursion that ends. *)
Lemma tc_reversed {A} (R R' : relation A) :
  (∀ x y, R x y → R' y x) → ∀ x y, tc R x y → tc R' y x.
Proof.
  intros Hflip x y. induction 1 as [x y HR|x y z HR _ IH].
  - by apply tc_once, Hflip.
  - eapply tc_r; [done|]. by apply Hflip.
Qed.

Lemma tree_acyclic_well_formed m :
  keyed m → external_outside m → acyclic m → tree_acyclic m.
Proof.
  intros Hkeyed Houtside Hacyclic k Hcycle. apply (Hacyclic k).
  apply (tc_reversed (child_step m) (parent_step m)); [|done].
  intros x y (p & c & Hx & Hy & Hchild). rewrite (Hkeyed _ _ Hx) in Hchild.
  exists c. split; [done|]. split; [|done].
  destruct (InheritsExternal c) eqn:Hext; [|done].
  apply (Houtside _ _ Hy) in Hext. congruence.
Qed.

(** ** What the commands print *)

(** Whatever the loader returns beside its error, [inspect] does not return
    that error with nothing printed. *)
Lemma inspect_never_silent env name imagesDir found e :
  is_empty name = false → is_empty imagesDir = false →
  BuildDefinition env name (ExpandPath env imagesDir) = (found, Some e) →
  inspect env name imagesDir = panics [] ∨
  ∃ line, inspect env name imagesDir = returns (mkOutcome [line] (Some e)).
Proof.
  intros Hname Hdir Hload. unfold inspect. rewrite Hname Hdir Hload.
  destruct found as [|d]; [by left|right]. by exists (Name d).
Qed.

(** The depth of a name is determined by the set. *)
Lemma depth_of_unique m k d d' : depth_of m k d → depth_of m k d' → d = d'.
Proof.
  intros Hd. revert d'.
  induction Hd as [k r Hk Hext|k r d Hk Hext Hd IH]; intros d' Hd';
    inversion Hd' as [? r' Hk'|? r' ? Hk']; subst;
    assert (r' = r) as -> by congruence; try congruence.
  f_equal. by apply IH.
Qed.

(** What [parents] prints for a name of a set in which every chain ends. *)
Lemma parents_printed env name imagesDir m current excl reverse :
  is_empty name = false → is_empty imagesDir = false →
  BuildAllDefinitions env (ExpandPath env imagesDir) = (m, None) →
  acyclic m → resolved m → m !! name = Some current →
  ∃ chain label,
    ancestors m name chain label ∧ (S (length chain) ≤ size m)%nat ∧
    ∀ fuel : nat, (size m ≤ fuel)%nat →
      parents env fuel name imagesDir excl reverse
      = Some (mkOutcome
                (let results := chain ++ (if excl then [] else [label]) in
                 if reverse then Reverse results else results) None).
Proof.
  intros Hname Hdir Hload Hacyclic Hresolved Hk.
  destruct (ancestors_exist m Hresolved Hacyclic name) as (chain & label & Hanc & Hlen);
    [eauto|].
  exists chain, label. split; [done|]. split; [done|]. intros fuel Hfuel.
  rewrite (parents_loaded _ _ _ _ Hname Hdir Hload _ _ _ _ Hk).
  destruct (parents_loop_ancestors m _ _ _ Hanc current [] excl Hk) as [_ Hrun].
  rewrite (parents_loop_mono m (S (length chain)) fuel _ _ _ _ _ Hrun); [lia|done].
Qed.

(** The labels of the top-level nodes are the external labels of the set,
    each once. *)
Lemma external_scan_labels env m n :
  range_visits_all env → removes_duplicates env →
  list_to_set (RemoveDuplicates env (external_scan (range_order env n m)))
  = external_labels m.
Proof.
  intros Hrange Hdedup. apply set_eq. intros label. unfold external_labels.
  rewrite !elem_of_list_to_set (proj2 (Hdedup _)) external_scan_filter.
  by rewrite (Hrange n m).
Qed.

(** Where an external label is also the name of a record, the label can
    stay in what [parents] prints with [exclude-external]: the ancestor [W]
    of [Z] is printed, and [W] is the label of the root as well. *)
Remark exclude_external_namesake :
  parents (Example.loader Example.namesake nil_ref) 2 "Z" "." true false
  = Some (mkOutcome ["W"] None) ∧
  parents (Example.loader Example.namesake nil_ref) 2 "Z" "." false false
  = Some (mkOutcome ["W"; "W"] None).
Proof. by split. Qed.

(** * The claims *)

(** C1: once the set is loaded and holds [name], [children] prints exactly
    the names of the records whose parent reference is [name] — each such
    record once, whatever order the map is scanned in, and no record whose
    parent reference is another string, so no descendant further down. *)
Theorem children_direct_only env name imagesDir reverse m current :
  range_visits_all env →
  is_empty name = false → is_empty imagesDir = false →
  BuildAllDefinitions env (ExpandPath env imagesDir) = (m, None) →
  keyed m → m !! name = Some current →
  let out := children env name imagesDir reverse in
  returned out = None ∧
  printed out ≡ₚ (Name ∘ snd) <$> filter (inherits_from name) (map_to_list m) ∧
  ∀ x, x ∈ printed out ↔ ∃ r, m !! x = Some r ∧ Inherits r = name.
Proof.
  intros Hrange Hname Hdir Hload Hkeyed Hk out.
  pose proof (children_printed _ _ _ reverse _ _ Hrange Hname Hdir Hload Hk) as Hperm.
  rewrite (Hkeyed _ _ Hk) in Hperm. fold out in Hperm. split; [|split; [done|]].
  - unfold out. by rewrite (children_loaded _ _ _ _ Hname Hdir Hload _ _ Hk).
  - intros x. rewrite Hperm list_elem_of_fmap. split.
    + intros ([k r] & -> & [Hparent Hentry%elem_of_map_to_list]%list_elem_of_filter).
      simpl in *. exists r. by rewrite (Hkeyed _ _ Hentry).
    + intros (r & Hx & Hparent). exists (x, r). simpl. split; [by rewrite (Hkeyed _ _ Hx)|].
      apply list_elem_of_filter. split; [done|]. by apply elem_of_map_to_list.
Qed.

Lemma children_direct_only_witness :
  let out := children Example.env "A" "." false in
  returned out = None ∧
  printed out ≡ₚ (Name ∘ snd) <$> filter (inherits_from "A") (map_to_list Example.set) ∧
  ∀ x, x ∈ printed out ↔ ∃ r, Example.set !! x = Some r ∧ Inherits r = "A".
Proof.
  apply (children_direct_only Example.env "A" "." false Example.set Example.A).
  - apply alternating_visits_all.
  - reflexivity.
  - reflexivity.
  - reflexivity.
  - apply example_keyed.
  - reflexivity.
Defined.

(** C2: for a name of an acyclic set whose local parent references all
    resolve, [parents] without [exclude-external] prints a chain as long as
    the name is deep, the external root counted; and for the example,
    [parents("B")] prints [A], then [base]. *)
Theorem parents_length_is_depth env name imagesDir m current :
  is_empty name = false → is_empty imagesDir = false →
  BuildAllDefinitions env (ExpandPath env imagesDir) = (m, None) →
  acyclic m → resolved m → m !! name = Some current →
  (∃ chain,
     parents env (size m) name imagesDir false false = Some (mkOutcome chain None) ∧
     ∀ d, depth_of m name d ↔ d = length chain) ∧
  parents Example.env (size Example.set) "B" "." false false
  = Some (mkOutcome ["A"; "base"] None).
Proof.
  intros Hname Hdir Hload Hacyclic Hresolved Hk. split; [|done].
  destruct (parents_printed _ _ _ _ _ false false Hname Hdir Hload Hacyclic Hresolved Hk)
    as (chain & label & Hanc & _ & Hrun).
  exists (chain ++ [label]). split; [by apply Hrun|].
  assert (depth_of m name (length (chain ++ [label]))) as Hdepth.
  { apply depth_of_ancestors. exists chain, label. split; [done|].
    rewrite length_app /=. lia. }
  intros d. split; [|by intros ->].
  intros Hd. by eapply depth_of_unique.
Qed.

Lemma parents_length_is_depth_witness :
  (∃ chain,
     parents Example.env (size Example.set) "B" "." false false
     = Some (mkOutcome chain None) ∧
     ∀ d, depth_of Example.set "B" d ↔ d = length chain) ∧
  parents Example.env (size Example.set) "B" "." false false
  = Some (mkOutcome ["A"; "base"] None).
Proof.
  apply (parents_length_is_depth Example.env "B" "." Example.set Example.B).
  - reflexivity.
  - reflexivity.
  - reflexivity.
  - apply example_acyclic.
  - apply example_resolved.
  - reflexivity.
Defined.

(** C3: the tree that [tree] prints has one top-level node per distinct
    parent reference of the records marked external, and below each such
    node exactly the records marked external that refer to its label; [tree]
    does print when no record is attached below itself. *)
Theorem tree_roots_and_children env imagesDir m :
  range_visits_all env → removes_duplicates env → is_empty imagesDir = false →
  BuildAllDefinitions env (ExpandPath env imagesDir) = (m, None) →
  (∀ fuel out, tree env fuel imagesDir = Some out →
     ∃ root, out = mkTreeOutcome (Some root) None ∧
       length (Gotree.Items root) = size (external_labels m) ∧
       NoDup (Gotree.Name <$> Gotree.Items root) ∧
       list_to_set (Gotree.Name <$> Gotree.Items root) = external_labels m ∧
       ∀ node, node ∈ Gotree.Items root →
         Gotree.Name <$> Gotree.Items node
         ≡ₚ (Name ∘ snd) <$> filter (external_child (Gotree.Name node)) (map_to_list m)) ∧
  (tree_acyclic m → is_Some (tree env (size m) imagesDir)).
Proof.
  intros Hrange Hdedup Hdir Hload. split.
  - intros fuel out. rewrite (tree_loaded _ _ _ Hdir Hload).
    destruct (tree_root env fuel m 0) as [[root n]|] eqn:Hroot; [|done].
    intros [= <-]. exists root. split; [done|].
    apply tree_root_items in Hroot as [Hnames Hnodes].
    pose proof (external_scan_labels env m 0 Hrange Hdedup) as Hlabels.
    rewrite -Hnames in Hlabels.
    assert (NoDup (Gotree.Name <$> Gotree.Items root)) as Hnodup.
    { rewrite Hnames. apply Hdedup. }
    repeat split; [|done|done|].
    + by rewrite -Hlabels size_list_to_set // length_fmap.
    + intros node Hnode. rewrite Forall_forall in Hnodes.
      destruct (Hnodes _ Hnode) as [n1 ->]. by rewrite (Hrange n1 m).
  - intros Hacyclic. rewrite (tree_loaded _ _ _ Hdir Hload).
    by destruct (tree_root_total env m Hrange Hacyclic 0) as [[root n] ->].
Qed.

Lemma tree_roots_and_children_witness :
  (∀ fuel out, tree Example.env fuel "." = Some out →
     ∃ root, out = mkTreeOutcome (Some root) None ∧
       length (Gotree.Items root) = size (external_labels Example.set) ∧
       NoDup (Gotree.Name <$> Gotree.Items root) ∧
       list_to_set (Gotree.Name <$> Gotree.Items root) = external_labels Example.set ∧
       ∀ node, node ∈ Gotree.Items root →
         Gotree.Name <$> Gotree.Items node
         ≡ₚ (Name ∘ snd) <$>
             filter (external_child (Gotree.Name node)) (map_to_list Example.set)) ∧
  is_Some (tree Example.env (size Example.set) ".").
Proof.
  destruct (tree_roots_and_children Example.env "." Example.set) as [Hshape Hprints].
  - apply alternating_visits_all.
  - apply first_occurrences_removes_duplicates.
  - reflexivity.
  - reflexivity.
  - split; [exact Hshape|]. apply Hprints. apply example_tree_acyclic.
Defined.

(** C4: when the loader fails, [inspect] has already handed
    [imageDefinition.Name] to [log.Println] — here the empty name of a zero
    struct — before it returns the error; with a nil result it stops on the
    dereference instead. *)
Theorem inspect_prints_before_error :
  inspect (Example.loader Example.set (ref zero)) "A" "."
  = returns (mkOutcome [""] (Some "unreadable")) ∧
  inspect (Example.loader Example.set nil_ref) "A" "." = panics [].
Proof. by split. Qed.

(** C5: for a name of a well-formed acyclic set, what [parents] prints with
    [exclude-external] is what it prints without, less the last line; that
    last line is the external root label, and it is not among the others. *)
Theorem parents_exclude_external env name imagesDir m current :
  is_empty name = false → is_empty imagesDir = false →
  BuildAllDefinitions env (ExpandPath env imagesDir) = (m, None) →
  acyclic m → resolved m → keyed m → external_outside m →
  m !! name = Some current →
  ∃ with_root without_root label,
    parents env (size m) name imagesDir false false = Some (mkOutcome with_root None) ∧
    parents env (size m) name imagesDir true false = Some (mkOutcome without_root None) ∧
    ancestors m name without_root label ∧
    last with_root = Some label ∧
    without_root = removelast with_root ∧
    label ∉ without_root.
Proof.
  intros Hname Hdir Hload Hacyclic Hresolved Hkeyed Houtside Hk.
  destruct (parents_printed _ _ _ _ _ false false Hname Hdir Hload Hacyclic Hresolved Hk)
    as (chain & label & Hanc & _ & Hrun).
  destruct (parents_printed _ _ _ _ _ true false Hname Hdir Hload Hacyclic Hresolved Hk)
    as (chain' & label' & Hanc' & _ & Hrun').
  exists (chain ++ [label]), chain', label.
  assert (chain' = chain ∧ label' = label) as [-> ->].
  { clear -Hanc Hanc'. revert chain' label' Hanc'.
    induction Hanc as [k r Hk Hext|k r r1 chain label Hk Hext Hk1 Hanc IH];
      intros chain' label' Hanc';
      inversion Hanc' as [? r' Hk'|? r' r1' ? ? Hk' ? Hk1' Hrest]; subst;
      assert (r' = r) as -> by congruence; try congruence; [done|].
    assert (r1' = r1) as -> by congruence.
    by destruct (IH _ _ Hrest) as [-> ->]. }
  repeat split.
  - by apply Hrun.
  - specialize (Hrun' (size m)). simpl in Hrun'. rewrite app_nil_r in Hrun'.
    by apply Hrun'.
  - done.
  - by rewrite last_snoc.
  - by rewrite removelast_last.
  - intros Hin.
    pose proof (ancestors_local_names m _ _ _ Hkeyed Hanc) as Hlocal.
    rewrite Forall_forall in Hlocal. destruct (Hlocal _ Hin) as [r Hr].
    rewrite (ancestors_root_outside m _ _ _ Houtside Hanc) in Hr. done.
Qed.

Lemma parents_exclude_external_witness :
  ∃ with_root without_root label,
    parents Example.env (size Example.set) "B" "." false false
    = Some (mkOutcome with_root None) ∧
    parents Example.env (size Example.set) "B" "." true false
    = Some (mkOutcome without_root None) ∧
    ancestors Example.set "B" without_root label ∧
    last with_root = Some label ∧
    without_root = removelast with_root ∧
    label ∉ without_root.
Proof.
  apply (parents_exclude_external Example.env "B" "." Example.set Example.B).
  - reflexivity.
  - reflexivity.
  - reflexivity.
  - apply example_acyclic.
  - apply example_resolved.
  - apply example_keyed.
  - apply example_external_outside.
  - reflexivity.
Defined.

(** C6: the walk of [parents] does not end when the chain from the start
    name runs into a cycle; in an acyclic set whose local parent references
    all resolve it ends after a number of turns that is at most the number
    of records. *)
Theorem parents_walk_termination m name current :
  m !! name = Some current →
  (cyclic_from m name →
     ∀ (fuel : nat) excl, parents_loop fuel m excl current [] = None) ∧
  (acyclic m → resolved m →
     ∃ turns : nat, (turns ≤ size m)%nat ∧
       ∀ excl,
         (∀ fuel : nat, (fuel < turns)%nat → parents_loop fuel m excl current [] = None) ∧
         ∃ results, ∀ fuel : nat,
           (turns ≤ fuel)%nat → parents_loop fuel m excl current [] = Some results).
Proof.
  intros Hk. split.
  - intros Hcyclic fuel excl. by eapply parents_loop_cyclic.
  - intros Hacyclic Hresolved.
    destruct (ancestors_exist m Hresolved Hacyclic name) as (chain & label & Hanc & Hlen);
      [eauto|].
    exists (S (length chain)). split; [done|]. intros excl.
    destruct (parents_loop_ancestors m _ _ _ Hanc current [] excl Hk) as [Hnone Hrun].
    split.
    + intros fuel Hfuel. apply Hnone. lia.
    + eexists. intros fuel Hfuel. by eapply parents_loop_mono.
Qed.

Lemma parents_walk_termination_witness :
  (∀ (fuel : nat) excl, parents_loop fuel Example.loop excl Example.P [] = None) ∧
  (∃ turns : nat, (turns ≤ size Example.set)%nat ∧
     ∀ excl,
       (∀ fuel : nat,
          (fuel < turns)%nat → parents_loop fuel Example.set excl Example.B [] = None) ∧
       ∃ results, ∀ fuel : nat,
         (turns ≤ fuel)%nat → parents_loop fuel Example.set excl Example.B [] = Some results).
Proof.
  split.
  - apply (parents_walk_termination Example.loop "P" Example.P).
    + reflexivity.
    + apply example_loop_cyclic.
  - apply (parents_walk_termination Example.set "B" Example.B).
    + reflexivity.
    + apply example_acyclic.
    + apply example_resolved.
Defined.

(** C7: once the set is loaded, [parents] and [children] given a name that
    is not in it print nothing and return the error that the image does not
    exist. *)
Theorem parents_children_not_found env fuel name imagesDir excludeExternal reverse m :
  is_empty name = false → is_empty imagesDir = false →
  BuildAllDefinitions env (ExpandPath env imagesDir) = (m, None) →
  m !! name = None →
  parents env fuel name imagesDir excludeExternal reverse
  = Some (mkOutcome [] (Some (not_exist name))) ∧
  children env name imagesDir reverse = mkOutcome [] (Some (not_exist name)).
Proof.
  intros Hname Hdir Hload Hk. split.
  - by apply (parents_missing _ _ _ _ Hname Hdir Hload).
  - by apply (children_missing _ _ _ _ Hname Hdir Hload).
Qed.

Lemma parents_children_not_found_witness :
  parents Example.env 0 "missing" "." false false
  = Some (mkOutcome [] (Some "Image missing doesn't exist")) ∧
  children Example.env "missing" "." false
  = mkOutcome [] (Some "Image missing doesn't exist").
Proof.
  apply (parents_children_not_found Example.env 0 "missing" "." false false Example.set).
  - reflexivity.
  - reflexivity.
  - reflexivity.
  - reflexivity.
Defined.

(** C8: with [reverse] set, what [children] prints is in descending
    byte-wise order — every name is at or above all the names after it —
    and is a rearrangement of what it prints without the flag when the map is
    scanned in the same order. *)
Theorem children_reverse_sorted env name imagesDir :
  StronglySorted (λ a b, String.leb b a = true)
    (printed (children env name imagesDir true)) ∧
  printed (children env name imagesDir true)
  ≡ₚ printed (children env name imagesDir false).
Proof.
  unfold children.
  destruct (is_empty name); [by split; [constructor|]|].
  destruct (is_empty imagesDir); [by split; [constructor|]|].
  destruct (BuildAllDefinitions env _) as [m [e|]]; [by split; [constructor|]|].
  destruct (m !! name) as [current|]; [|by split; [constructor|]].
  simpl. split; [apply sort_desc_strongly_sorted|apply sort_desc_perm].
Qed.

(** C9: reversing twice gives back the sequence; and [parents] with
    [reverse] prints the reversal of what it prints without. *)
Theorem Reverse_involutive :
  (∀ results, Reverse (Reverse results) = results) ∧
  ∀ env fuel name imagesDir excludeExternal,
    printed <$> parents env fuel name imagesDir excludeExternal true
    = (Reverse ∘ printed) <$> parents env fuel name imagesDir excludeExternal false.
Proof.
  split.
  - intros results. rewrite !Reverse_reverse. apply reverse_involutive.
  - intros env fuel name imagesDir excl. unfold parents.
    destruct (is_empty name); [done|].
    destruct (is_empty imagesDir); [done|].
    destruct (BuildAllDefinitions env _) as [m [e|]]; [done|].
    destruct (m !! name) as [current|]; [|done].
    by destruct (parents_loop fuel m excl current []).
Qed.

(** C10: the scan of [children] does not look at [InheritsExternal]: a
    record whose parent is marked external and is spelled like the local
    name [name] is printed among the children of [name]. *)
Theorem children_ignores_external_flag env name imagesDir reverse m current k r :
  range_visits_all env →
  is_empty name = false → is_empty imagesDir = false →
  BuildAllDefinitions env (ExpandPath env imagesDir) = (m, None) →
  m !! name = Some current → Name current = name →
  m !! k = Some r → InheritsExternal r = true → Inherits r = name →
  Name r ∈ printed (children env name imagesDir reverse).
Proof.
  intros Hrange Hname Hdir Hload Hk Hcurrent Hr Hext Hparent.
  rewrite (children_printed _ _ _ reverse _ _ Hrange Hname Hdir Hload Hk) Hcurrent.
  apply list_elem_of_fmap. exists (k, r). split; [done|].
  apply list_elem_of_filter. split; [done|]. by apply elem_of_map_to_list.
Qed.

Lemma children_ignores_external_flag_witness :
  "Y" ∈ printed (children (Example.loader Example.shadow nil_ref) "X" "." false).
Proof.
  apply (children_ignores_external_flag (Example.loader Example.shadow nil_ref)
           "X" "." false Example.shadow Example.X "Y" Example.Y).
  - apply alternating_visits_all.
  - reflexivity.
  - reflexivity.
  - reflexivity.
  - reflexivity.
  - reflexivity.
  - reflexivity.
  - reflexivity.
  - reflexivity.
Defined.

(** * Further properties of the commands *)

(** ** Errors *)

(** X1: a command that returns an error has printed nothing, and the error
    is one of the two validation messages, the loader's own error, or — for
    [parents] and [children] — the message that the image does not exist;
    [tree] draws a tree exactly when it returns no error. *)
Theorem errors_print_nothing env fuel name imagesDir excludeExternal reverse :
  (∀ out e,
     parents env fuel name imagesDir excludeExternal reverse = Some out →
     returned out = Some e →
     printed out = [] ∧
     (e = "Name is required" ∨ e = "Images directory is required" ∨
      (BuildAllDefinitions env (ExpandPath env imagesDir)).2 = Some e ∨
      e = not_exist name)) ∧
  (∀ e,
     returned (children env name imagesDir reverse) = Some e →
     printed (children env name imagesDir reverse) = [] ∧
     (e = "Name is required" ∨ e = "Images directory is required" ∨
      (BuildAllDefinitions env (ExpandPath env imagesDir)).2 = Some e ∨
      e = not_exist name)) ∧
  (∀ out,
     tree env fuel imagesDir = Some out →
     (drawn out = None ↔ is_Some (tree_returned out)) ∧
     ∀ e, tree_returned out = Some e →
       e = "Images directory is required" ∨
       (BuildAllDefinitions env (ExpandPath env imagesDir)).2 = Some e).
Proof.
  split; [|split].
  - intros out e. unfold parents.
    destruct (is_empty name); [intros [= <-] [= <-]; eauto|].
    destruct (is_empty imagesDir); [intros [= <-] [= <-]; eauto|].
    destruct (BuildAllDefinitions env _) as [m [e'|]]; [intros [= <-] [= <-]; eauto|].
    destruct (m !! name) as [current|]; [|intros [= <-] [= <-]; eauto 6].
    by destruct (parents_loop fuel m excludeExternal current []); intros [= <-].
  - intros e. unfold children.
    destruct (is_empty name); [intros [= <-]; eauto|].
    destruct (is_empty imagesDir); [intros [= <-]; eauto|].
    destruct (BuildAllDefinitions env _) as [m [e'|]]; [intros [= <-]; eauto|].
    by destruct (m !! name) as [current|]; [|intros [= <-]; eauto 6].
  - intros out. unfold tree.
    destruct (is_empty imagesDir).
    { intros [= <-]. simpl. split; [by split; eauto|]. intros e [= <-]. eauto. }
    destruct (BuildAllDefinitions env _) as [m [e'|]].
    { intros [= <-]. simpl. split; [by split; eauto|]. intros e [= <-]. eauto. }
    destruct (tree_root env fuel m 0) as [[root n]|]; [|done].
    intros [= <-]. simpl. split; [|done]. split; [done|]. by intros [e He].
Qed.

Lemma errors_print_nothing_witness :
  (printed (mkOutcome [] (Some (not_exist "missing"))) = [] ∧
   ("Image missing doesn't exist" = "Name is required" ∨
    "Image missing doesn't exist" = "Images directory is required" ∨
    (BuildAllDefinitions Example.env (ExpandPath Example.env ".")).2
    = Some "Image missing doesn't exist" ∨
    "Image missing doesn't exist" = not_exist "missing")) ∧
  (printed (children Scenario.failing_loader "A" "." true) = [] ∧
   ("unreadable" = "Name is required" ∨ "unreadable" = "Images directory is required" ∨
    (BuildAllDefinitions Scenario.failing_loader
       (ExpandPath Scenario.failing_loader ".")).2 = Some "unreadable" ∨
    "unreadable" = not_exist "A")).
Proof.
  split.
  - destruct (errors_print_nothing Example.env 0 "missing" "." false false)
      as [Hparents _].
    apply (Hparents (mkOutcome [] (Some (not_exist "missing")))).
    + reflexivity.
    + reflexivity.
  - destruct (errors_print_nothing Scenario.failing_loader 0 "A" "." false true)
      as (_ & Hchildren & _).
    apply Hchildren. reflexivity.
Defined.

(** ** [parents] *)


(** X2: for a name of an acyclic set whose local parent references all
    resolve, [parents] prints the names of the ancestors, nearest first, and
    then the external label the chain ends in; [exclude-external] drops the
    label, [reverse] turns the lines round; the ancestry is the only one the
    name has. *)
Theorem parents_prints_ancestry env name imagesDir m current excludeExternal reverse :
  is_empty name = false → is_empty imagesDir = false →
  BuildAllDefinitions env (ExpandPath env imagesDir) = (m, None) →
  acyclic m → resolved m → m !! name = Some current →
  ∃ chain label,
    ancestors m name chain label ∧
    (∀ chain' label', ancestors m name chain' label' → chain' = chain ∧ label' = label) ∧
    ∀ fuel : nat, (size m ≤ fuel)%nat →
      parents env fuel name imagesDir excludeExternal reverse
      = Some (mkOutcome
                (let results := chain ++ (if excludeExternal then [] else [label]) in
                 if reverse then Reverse results else results) None).
Proof.
  intros Hname Hdir Hload Hacyclic Hresolved Hk.
  destruct (parents_printed _ _ _ _ _ excludeExternal reverse
              Hname Hdir Hload Hacyclic Hresolved Hk)
    as (chain & label & Hanc & _ & Hrun).
  exists chain, label. split; [done|]. split; [|done].
  clear -Hanc. induction Hanc as [k r Hk Hext|k r r1 chain label Hk Hext Hk1 Hanc IH];
    intros chain' label' Hanc';
    inversion Hanc' as [? r' Hk'|? r' r1' ? ? Hk' ? Hk1' Hrest]; subst;
    assert (r' = r) as -> by congruence; try congruence; [done|].
  assert (r1' = r1) as -> by congruence.
  by destruct (IH _ _ Hrest) as [-> ->].
Qed.

Lemma parents_prints_ancestry_witness :
  ∃ chain label,
    ancestors Example.set "B" chain label ∧
    (∀ chain' label',
       ancestors Example.set "B" chain' label' → chain' = chain ∧ label' = label) ∧
    ∀ fuel : nat, (size Example.set ≤ fuel)%nat →
      parents Example.env fuel "B" "." false true
      = Some (mkOutcome (Reverse (chain ++ [label])) None).
Proof.
  apply (parents_prints_ancestry Example.env "B" "." Example.set Example.B false true).
  - reflexivity.
  - reflexivity.
  - reflexivity.
  - apply example_acyclic.
  - apply example_resolved.
  - reflexivity.
Defined.

(** The walk from the zero value, where no record is stored under the empty
    name, goes round on the zero value. *)
Lemma parents_loop_zero m (fuel : nat) excl acc :
  m !! "" = None → parents_loop fuel m excl zero acc = None.
Proof.
  intros Hempty. revert acc. induction fuel as [|fuel IH]; intros acc; [done|].
  rewrite parents_loop_S. simpl. unfold at_key. rewrite Hempty. apply IH.
Qed.

Lemma parents_loop_ends_ancestors m (fuel : nat) excl k r acc results :
  m !! "" = None → m !! k = Some r →
  parents_loop fuel m excl r acc = Some results →
  ∃ chain label, ancestors m k chain label.
Proof.
  intros Hempty. revert k r acc.
  induction fuel as [|fuel IH]; intros k r acc Hk; [done|].
  rewrite parents_loop_S. destruct (InheritsExternal r) eqn:Hext.
  - intros _. exists [], (Inherits r). by eapply ancestors_external.
  - unfold at_key. destruct (m !! Inherits r) as [r'|] eqn:Hk'; simpl.
    + intros (chain & label & Hanc)%(IH _ _ _ Hk').
      exists (Name r' :: chain), label. by eapply ancestors_local.
    + by rewrite parents_loop_zero.
Qed.

(** X3: where no record is stored under the empty name, [parents] comes back
    for a name of the set exactly when the chain of parents from it reaches a
    record with an external parent; a chain that runs into a reference to a
    missing record never ends. *)
Theorem parents_returns_iff_rooted env name imagesDir m current excludeExternal reverse :
  is_empty name = false → is_empty imagesDir = false →
  BuildAllDefinitions env (ExpandPath env imagesDir) = (m, None) →
  m !! name = Some current → m !! "" = None →
  (∃ fuel, is_Some (parents env fuel name imagesDir excludeExternal reverse))
  ↔ ∃ chain label, ancestors m name chain label.
Proof.
  intros Hname Hdir Hload Hk Hempty. split.
  - intros [fuel Hsome]. rewrite (parents_loaded _ _ _ _ Hname Hdir Hload _ _ _ _ Hk) in Hsome.
    destruct (parents_loop fuel m excludeExternal current []) as [results|] eqn:Hrun;
      [|by destruct Hsome].
    by eapply parents_loop_ends_ancestors.
  - intros (chain & label & Hanc). exists (S (length chain)).
    rewrite (parents_loaded _ _ _ _ Hname Hdir Hload _ _ _ _ Hk).
    destruct (parents_loop_ancestors m _ _ _ Hanc current [] excludeExternal Hk) as [_ ->].
    by eexists.
Qed.

Lemma parents_returns_iff_rooted_witness :
  ((∃ fuel, is_Some (parents Example.env fuel "B" "." false false))
   ↔ ∃ chain label, ancestors Example.set "B" chain label) ∧
  ((∃ fuel, is_Some (parents (Example.loader Scenario.orphan nil_ref) fuel "D" "." false false))
   ↔ ∃ chain label, ancestors Scenario.orphan "D" chain label).
Proof.
  split.
  - apply (parents_returns_iff_rooted Example.env "B" "." Example.set Example.B false false).
    + reflexivity.
    + reflexivity.
    + reflexivity.
    + reflexivity.
    + reflexivity.
  - apply (parents_returns_iff_rooted (Example.loader Scenario.orphan nil_ref)
             "D" "." Scenario.orphan Scenario.D false false).
    + reflexivity.
    + reflexivity.
    + reflexivity.
    + reflexivity.
    + reflexivity.
Defined.

(** ** [children] *)

(** In a keyed set the names of the records picked by a scan are distinct. *)
Lemma keyed_names_NoDup m (P : string * ImageDefinition → Prop) `{∀ x, Decision (P x)} :
  keyed m → NoDup ((Name ∘ snd) <$> filter P (map_to_list m)).
Proof.
  intros Hkeyed. apply NoDup_fmap_2_strong.
  - intros [k r] [k' r'] [_ Hin%elem_of_map_to_list]%list_elem_of_filter
      [_ Hin'%elem_of_map_to_list]%list_elem_of_filter Hsame. simpl in Hsame.
    rewrite (Hkeyed _ _ Hin) (Hkeyed _ _ Hin') in Hsame. subst k'.
    f_equal. congruence.
  - apply NoDup_filter, NoDup_map_to_list.
Qed.

(** X4: in a keyed set, [children] prints no name twice, sorted or not. *)
Theorem children_distinct env name imagesDir reverse m :
  range_visits_all env →
  BuildAllDefinitions env (ExpandPath env imagesDir) = (m, None) → keyed m →
  NoDup (printed (children env name imagesDir reverse)).
Proof.
  intros Hrange Hload Hkeyed.
  destruct (is_empty name) eqn:Hname;
    [unfold children; rewrite Hname; constructor|].
  destruct (is_empty imagesDir) eqn:Hdir;
    [unfold children; rewrite Hname Hdir; constructor|].
  destruct (m !! name) as [current|] eqn:Hk.
  - rewrite (children_printed _ _ _ reverse _ _ Hrange Hname Hdir Hload Hk).
    by apply keyed_names_NoDup.
  - rewrite (children_missing _ _ _ _ Hname Hdir Hload _ Hk). constructor.
Qed.

Lemma children_distinct_witness :
  NoDup (printed (children Example.env "A" "." true)).
Proof.
  apply (children_distinct Example.env "A" "." true Example.set).
  - apply alternating_visits_all.
  - reflexivity.
  - apply example_keyed.
Defined.

(** X5: with [reverse], what [children] prints and returns does not depend
    on the order in which the runtime walks the map: two runs that load the
    same set agree line for line. *)
Theorem children_reverse_order_independent env env' name imagesDir :
  range_visits_all env → range_visits_all env' →
  BuildAllDefinitions env (ExpandPath env imagesDir)
  = BuildAllDefinitions env' (ExpandPath env' imagesDir) →
  children env name imagesDir true = children env' name imagesDir true.
Proof.
  intros Hrange Hrange' Hsame. unfold children. rewrite -Hsame.
  destruct (is_empty name); [done|].
  destruct (is_empty imagesDir); [done|].
  destruct (BuildAllDefinitions env _) as [m [e|]]; [done|].
  destruct (m !! name) as [current|]; [|done].
  f_equal. apply sort_desc_unique; [apply sort_desc_strongly_sorted|].
  by rewrite sort_desc_perm !children_scan_filter (Hrange 0 m) (Hrange' 0 m).
Qed.

Lemma children_reverse_order_independent_witness :
  children Example.env "A" "." true
  = children (Scenario.backwards_loader Example.set) "A" "." true.
Proof.
  apply (children_reverse_order_independent
           Example.env (Scenario.backwards_loader Example.set) "A" ".").
  - apply alternating_visits_all.
  - intros n m. apply reverse_Permutation.
  - reflexivity.
Defined.

(** The first line that [parents] prints for a record is the parent
    reference of the record, be the parent local or external. *)
Lemma ancestors_head m k r chain label :
  keyed m → m !! k = Some r → ancestors m k chain label →
  head (chain ++ [label]) = Some (Inherits r).
Proof.
  intros Hkeyed Hk Hanc.
  destruct Hanc as [k r0 Hk0 Hext|k r0 r1 chain label Hk0 Hext Hk1 Hanc];
    assert (r0 = r) as -> by congruence; [done|].
  simpl. by rewrite (Hkeyed _ _ Hk1).
Qed.

(** X6: [children] and [parents] agree: in a keyed, acyclic set whose local
    references resolve, a definition [x] is printed among the children of
    [name] exactly when [name] is the first line that [parents] prints for
    [x]. *)
Theorem children_parents_agree env name x imagesDir reverse m current r :
  range_visits_all env →
  is_empty name = false → is_empty x = false → is_empty imagesDir = false →
  BuildAllDefinitions env (ExpandPath env imagesDir) = (m, None) →
  keyed m → acyclic m → resolved m →
  m !! name = Some current → m !! x = Some r →
  x ∈ printed (children env name imagesDir reverse)
  ↔ ∃ out, parents env (size m) x imagesDir false false = Some out ∧
           head (printed out) = Some name.
Proof.
  intros Hrange Hname Hx Hdir Hload Hkeyed Hacyclic Hresolved Hk Hr.
  destruct (parents_printed _ _ _ _ _ false false Hx Hdir Hload Hacyclic Hresolved Hr)
    as (chain & label & Hanc & _ & Hrun).
  rewrite (Hrun (size m)); [done|]. simpl.
  rewrite (children_printed _ _ _ reverse _ _ Hrange Hname Hdir Hload Hk).
  rewrite (Hkeyed _ _ Hk).
  pose proof (ancestors_head _ _ _ _ _ Hkeyed Hr Hanc) as Hhead.
  assert (x ∈ (Name ∘ snd) <$> filter (inherits_from name) (map_to_list m)
          ↔ Inherits r = name) as ->.
  { rewrite list_elem_of_fmap. split.
    - intros ([k' r'] & Hx' & [Hparent Hentry%elem_of_map_to_list]%list_elem_of_filter).
      simpl in Hx', Hparent. rewrite (Hkeyed _ _ Hentry) in Hx'. subst k'.
      by assert (r' = r) as -> by congruence.
    - intros Hparent. exists (x, r). split; [by rewrite /= (Hkeyed _ _ Hr)|].
      apply list_elem_of_filter. split; [done|]. by apply elem_of_map_to_list. }
  split.
  - intros <-. by eexists.
  - intros (out & [= <-] & Hfirst). simpl in Hfirst. congruence.
Qed.

Lemma children_parents_agree_witness :
  "B" ∈ printed (children Example.env "A" "." false)
  ↔ ∃ out, parents Example.env (size Example.set) "B" "." false false = Some out ∧
           head (printed out) = Some "A".
Proof.
  apply (children_parents_agree Example.env "A" "B" "." false
           Example.set Example.A Example.B).
  - apply alternating_visits_all.
  - reflexivity.
  - reflexivity.
  - reflexivity.
  - reflexivity.
  - apply example_keyed.
  - apply example_acyclic.
  - apply example_resolved.
  - reflexivity.
  - reflexivity.
Defined.

(** ** [tree] *)

Section forest_shape.
Context (env : Env) (m : Definitions).
Hypothesis Hrange : range_visits_all env.




End forest_shape.








(** A loop with a turn that never comes back does not come back. *)
Lemma for_each_None {A St} (body : St → A → Run St) entries x :
  x ∈ entries → (∀ s n, body s x n = None) →
  ∀ s n, for_each body entries s n = None.
Proof.
  intros Hin Hturn. induction entries as [|y entries IH]; intros s n.
  - by apply elem_of_nil in Hin.
  - simpl. unfold mbind, Run_bind, bind.
    apply elem_of_cons in Hin as [<-|Hin]; [by rewrite Hturn|].
    destruct (body s y n) as [[s1 n1]|]; [by apply IH|done].
Qed.

Section forest_cycles.
Context (env : Env) (m : Definitions).
Hypothesis Hrange : range_visits_all env.

Lemma leads_to_cycle_step k :
  leads_to_cycle m k → ∃ k', child_step m k k' ∧ leads_to_cycle m k'.
Proof.
  intros (c & Hreach & Hcycle). destruct Hreach as [k|k k' c Hstep Hrest].
  - destruct (tc_first _ _ _ Hcycle) as (k' & Hstep & Hback).
    exists k'. split; [done|]. by exists k.
  - exists k'. split; [done|]. by exists c.
Qed.

Lemma buildTreeRecursively_diverges (fuel : nat) k p n :
  m !! k = Some p → leads_to_cycle m k →
  buildTreeRecursively env fuel p m n = None.
Proof.
  revert k p n. induction fuel as [|fuel IH]; intros k p n Hk Hcycle; [done|].
  destruct (leads_to_cycle_step _ Hcycle) as (k' & (p' & c & Hk0 & Hk' & Hchild) & Hnext).
  assert (p' = p) as -> by congruence.
  simpl. unfold mbind, Run_bind, bind, range.
  apply (for_each_None _ _ (k', c)); [by apply (range_lookup env m Hrange)|].
  intros children n0. simpl.
  apply String.eqb_eq in Hchild as ->. by rewrite (IH _ _ _ Hk' Hnext).
Qed.

Lemma tree_root_diverges fuel n :
  removes_duplicates env → tree_reaches_cycle m → tree_root env fuel m n = None.
Proof.
  intros Hdedup (k0 & r0 & k & Hk0 & Hext & Hreach & Hcycle).
  unfold tree_root, mbind, Run_bind, bind, range.
  apply (for_each_None _ _ (Inherits r0)).
  { apply Hdedup. rewrite external_scan_filter. apply list_elem_of_fmap.
    exists (k0, r0). split; [done|]. apply list_elem_of_filter. split; [done|].
    by apply (range_lookup env m Hrange). }
  intros root n0. unfold external_node, mbind, Run_bind, bind, range.
  rewrite (for_each_None _ _ (k0, r0)); [by apply (range_lookup env m Hrange)| |done].
  intros node n1. simpl. rewrite Hext String.eqb_refl. simpl.
  rewrite (buildTreeRecursively_diverges fuel k0 r0); [done|by exists k|done].
Qed.

Hypothesis Hfree : ¬ tree_reaches_cycle m.

Lemma below_external_acyclic k : below_external m k → ¬ tc (child_step m) k k.
Proof. intros (k0 & r0 & Hk0 & Hext & Hreach) Hcycle. apply Hfree. by exists k0, r0, k. Qed.

Lemma buildTreeRecursively_returns (fuel : nat) (unvisited : gset string) k p :
  (size unvisited ≤ fuel)%nat → k ∈ unvisited → m !! k = Some p → below_external m k →
  (∀ v, is_Some (m !! v) → v ∉ unvisited → tc (child_step m) v k) →
  ∀ n, is_Some (buildTreeRecursively env fuel p m n).
Proof.
  revert unvisited k p.
  induction fuel as [|fuel IH]; intros unvisited k p Hsize Hin Hk Hbelow Hvisited n.
  { apply Nat.le_0_r, size_empty_inv in Hsize. set_solver. }
  assert (size unvisited = S (size (unvisited ∖ {[k]}))) as Hone.
  { rewrite size_difference; [set_solver|]. rewrite size_singleton.
    assert (size unvisited ≠ 0); [|lia].
    intros Hzero%size_empty_inv. set_solver. }
  pose proof (below_external_acyclic _ Hbelow) as Hacyclic.
  simpl. unfold mbind, Run_bind, bind, range.
  apply for_each_total. intros [k' c] children n0 Hentry. simpl.
  apply (range_lookup env m Hrange) in Hentry.
  destruct (String.eqb_spec (Inherits c) (Name p)) as [Hchild|]; [|done].
  assert (child_step m k k') as Hstep by by exists p, c.
  destruct (IH (unvisited ∖ {[k]}) k' c) with (n := n0) as [[items n1] ->]; [..|done].
  - lia.
  - apply elem_of_difference. split.
    + destruct (decide (k' ∈ unvisited)) as [|Hout]; [done|].
      destruct Hacyclic. eapply tc_l; [done|]. apply Hvisited; eauto.
    + intros Hsame%elem_of_singleton. destruct Hacyclic.
      apply tc_once. by rewrite Hsame in Hstep.
  - done.
  - destruct Hbelow as (k0 & r0 & Hk0 & Hext & Hreach).
    exists k0, r0. repeat split; [done..|]. by eapply rtc_r.
  - intros v Hv Hout. destruct (decide (v = k)) as [->|Hne]; [by apply tc_once|].
    eapply tc_r; [|done]. apply Hvisited; [done|]. set_solver.
Qed.

Lemma external_node_returns label n :
  is_Some (external_node env (size m) m label n).
Proof.
  unfold external_node, mbind, Run_bind, bind, range.
  apply for_each_total. intros [k r] node n0 Hentry. simpl.
  apply (range_lookup env m Hrange) in Hentry.
  destruct (InheritsExternal r) eqn:Hext; [|done]. simpl.
  destruct (String.eqb (Inherits r) label); [|done].
  destruct (buildTreeRecursively_returns (size m) (dom m) k r) with (n := n0)
    as [[items n1] ->]; [| | | |by intros v ?%elem_of_dom|done].
  - by rewrite size_dom.
  - apply elem_of_dom. eauto.
  - done.
  - by exists k, r.
Qed.

Lemma tree_root_returns n : is_Some (tree_root env (size m) m n).
Proof.
  unfold tree_root, mbind, Run_bind, bind, range.
  apply for_each_total. intros label root n0 _.
  by destruct (external_node_returns label n0) as [[node n1] ->].
Qed.

End forest_cycles.

(** X9: [tree] comes back exactly when no record with an external parent
    leads, through the records attached below it, to a record that is
    attached below itself; then a recursion as deep as the set is large is
    enough, and otherwise no depth is. *)
Theorem tree_returns_iff_no_cycle env imagesDir m :
  range_visits_all env → removes_duplicates env → is_empty imagesDir = false →
  BuildAllDefinitions env (ExpandPath env imagesDir) = (m, None) →
  ((∃ fuel, is_Some (tree env fuel imagesDir)) ↔ ¬ tree_reaches_cycle m) ∧
  (¬ tree_reaches_cycle m → is_Some (tree env (size m) imagesDir)) ∧
  (tree_reaches_cycle m → ∀ fuel, tree env fuel imagesDir = None).
Proof.
  intros Hrange Hdedup Hdir Hload.
  assert (tree_reaches_cycle m → ∀ fuel, tree env fuel imagesDir = None) as Hcycle.
  { intros Hcycle fuel. rewrite (tree_loaded _ _ _ Hdir Hload).
    by rewrite (tree_root_diverges env m Hrange fuel 0 Hdedup Hcycle). }
  assert (¬ tree_reaches_cycle m → is_Some (tree env (size m) imagesDir)) as Hfree.
  { intros Hfree. rewrite (tree_loaded _ _ _ Hdir Hload).
    by destruct (tree_root_returns env m Hrange Hfree 0) as [[root n] ->]. }
  split; [|done]. split.
  - intros [fuel Hsome] Hbad. rewrite (Hcycle Hbad fuel) in Hsome. by destruct Hsome.
  - intros Hgood. exists (size m). by apply Hfree.
Qed.

Lemma namesake_reaches_cycle : tree_reaches_cycle Example.namesake.
Proof.
  exists "W", Example.W, "W". repeat split; [done|].
  apply tc_once. by exists Example.W, Example.W.
Qed.

Lemma tree_returns_iff_no_cycle_witness :
  (∀ fuel, tree (Example.loader Example.namesake nil_ref) fuel "." = None) ∧
  is_Some (tree Example.env (size Example.set) ".").
Proof.
  split.
  - apply (tree_returns_iff_no_cycle (Example.loader Example.namesake nil_ref) "."
             Example.namesake).
    + apply alternating_visits_all.
    + apply first_occurrences_removes_duplicates.
    + reflexivity.
    + reflexivity.
    + apply namesake_reaches_cycle.
  - apply (tree_returns_iff_no_cycle Example.env "." Example.set).
    + apply alternating_visits_all.
    + apply first_occurrences_removes_duplicates.
    + reflexivity.
    + reflexivity.
    + intros (k0 & r0 & k & _ & _ & _ & Hcycle). by apply (example_tree_acyclic k).
Defined.

(** X10: a set in which no record has an external parent gives the empty
    tree — [tree] draws none of its definitions — and does so at once, even
    where the definitions inherit from each other in a circle. *)
Theorem tree_without_external env fuel imagesDir m :
  removes_duplicates env → range_visits_all env → is_empty imagesDir = false →
  BuildAllDefinitions env (ExpandPath env imagesDir) = (m, None) →
  (∀ k r, m !! k = Some r → InheritsExternal r = false) →
  tree env fuel imagesDir = Some (mkTreeOutcome (Some (Gotree.mkGT "" [])) None).
Proof.
  intros Hdedup Hrange Hdir Hload Hlocal. rewrite (tree_loaded _ _ _ Hdir Hload).
  unfold tree_root, mbind, Run_bind, bind, range.
  assert (RemoveDuplicates env (external_scan (range_order env 0 m)) = []) as ->; [|done].
  apply elem_of_nil_inv. intros label Hlabel.
  apply (proj1 (proj2 (Hdedup _) _)) in Hlabel. rewrite external_scan_filter in Hlabel.
  apply list_elem_of_fmap in Hlabel
    as ([k r] & _ & [Hext Hentry%(range_lookup env m Hrange)]%list_elem_of_filter).
  simpl in Hext. by rewrite (Hlocal _ _ Hentry) in Hext.
Qed.

Lemma tree_without_external_witness :
  tree (Example.loader Example.loop nil_ref) 0 "."
  = Some (mkTreeOutcome (Some (Gotree.mkGT "" [])) None).
Proof.
  apply (tree_without_external (Example.loader Example.loop nil_ref) 0 "." Example.loop).
  - apply first_occurrences_removes_duplicates.
  - apply alternating_visits_all.
  - reflexivity.
  - reflexivity.
  - intros k r Hk. unfold Example.loop in Hk. lookup_cases Hk; done.
Defined.

(** ** The actions *)

(** X11: an action of [parents], [children] or [tree] that hands an error
    to the [cli] library does so with exit code 1 and with nothing logged or
    drawn; given no argument, or more than one, the first two do so whatever
    the flags and the files are. *)
Theorem actions_exit_one env fuel c :
  (∀ out e, parentsAction env fuel c = Some out → exit out = Some e →
     Cli.exitCode e = 1%Z ∧ logged out = []) ∧
  (∀ e, exit (childrenAction env c) = Some e →
     Cli.exitCode e = 1%Z ∧ logged (childrenAction env c) = []) ∧
  (∀ out e, treeAction env fuel c = Some out → out.2 = Some e →
     Cli.exitCode e = 1%Z ∧ out.1 = None) ∧
  (length (Cli.Args c) ≠ 1 →
     parentsAction env fuel c = Some unexpected_arguments ∧
     childrenAction env c = unexpected_arguments).
Proof.
  split; [|split; [|split]].
  - intros out e. unfold parentsAction.
    destruct (wrong_arity c); [by intros [= <-] [= <-]|].
    destruct (parents env fuel _ _ _ _) as [o|] eqn:Hrun; [|done].
    intros [= <-]. simpl. destruct (returned o) as [err|] eqn:Herr; [|done].
    intros [= <-]. split; [done|].
    unfold parents in Hrun.
    destruct (is_empty _); [by injection Hrun as <-|].
    destruct (is_empty _); [by injection Hrun as <-|].
    destruct (BuildAllDefinitions env _) as [m [e'|]]; [by injection Hrun as <-|].
    destruct (m !! _) as [current|]; [|by injection Hrun as <-].
    destruct (parents_loop fuel m _ current []); [|done].
    injection Hrun as <-. done.
  - intros e. unfold childrenAction.
    destruct (wrong_arity c); [by intros [= <-]|]. simpl.
    destruct (returned _) as [err|] eqn:Herr; [|done].
    intros [= <-]. split; [done|]. revert Herr. unfold children.
    destruct (is_empty _); [done|].
    destruct (is_empty _); [done|].
    destruct (BuildAllDefinitions env _) as [m [e'|]]; [done|].
    by destruct (m !! _) as [current|].
  - intros out e. unfold treeAction, tree.
    destruct (is_empty _); [by intros [= <-] [= <-]|].
    destruct (BuildAllDefinitions env _) as [m [e'|]]; [by intros [= <-] [= <-]|].
    by destruct (tree_root env fuel m 0) as [[root n]|]; intros [= <-].
  - intros Harity. unfold parentsAction, childrenAction, wrong_arity.
    by apply Nat.eqb_neq in Harity as ->.
Qed.

Lemma actions_exit_one_witness :
  (Cli.exitCode (Cli.NewExitError "unreadable" 1) = 1%Z ∧
   logged (childrenAction Scenario.failing_loader
             (Cli.mkContext ["A"] None false false)) = []) ∧
  parentsAction Example.env 0 (Cli.mkContext ["A"; "B"] None false true)
  = Some unexpected_arguments ∧
  childrenAction Example.env (Cli.mkContext ["A"; "B"] None false true)
  = unexpected_arguments.
Proof.
  split.
  - destruct (actions_exit_one Scenario.failing_loader 0
                (Cli.mkContext ["A"] None false false)) as (_ & Hchildren & _).
    apply Hchildren. reflexivity.
  - destruct (actions_exit_one Example.env 0
                (Cli.mkContext ["A"; "B"] None false true)) as (_ & _ & _ & Harity).
    apply Harity. simpl. lia.
Defined.

(** ** Across the commands *)

(** Every local ancestor is reached from the name by parent references. *)
Lemma ancestors_reached m k chain label :
  keyed m → ancestors m k chain label →
  Forall (λ x, tc (parent_step m) k x ∧ is_Some (m !! x)) chain.
Proof.
  intros Hkeyed. induction 1 as [|k r r' chain label Hk Hext Hk' Hanc IH]; [done|].
  assert (parent_step m k (Inherits r)) as Hstep by by exists r.
  constructor.
  - rewrite (Hkeyed _ _ Hk'). split; [by apply tc_once|eauto].
  - eapply Forall_impl; [done|]. intros x [Hreach Hx]. split; [|done].
    by eapply tc_l.
Qed.

(** X12: in a keyed, acyclic set whose local references resolve, the lines
    that [parents] prints with [exclude-external] are names of definitions of
    the set, no two of them the same and none the name that was asked for. *)
Theorem parents_lines_distinct env name imagesDir m current :
  is_empty name = false → is_empty imagesDir = false →
  BuildAllDefinitions env (ExpandPath env imagesDir) = (m, None) →
  keyed m → acyclic m → resolved m → m !! name = Some current →
  ∃ lines,
    parents env (size m) name imagesDir true false = Some (mkOutcome lines None) ∧
    NoDup lines ∧ (name ∉ lines) ∧ ∀ x, x ∈ lines → is_Some (m !! x).
Proof.
  intros Hname Hdir Hload Hkeyed Hacyclic Hresolved Hk.
  destruct (parents_printed _ _ _ _ _ true false Hname Hdir Hload Hacyclic Hresolved Hk)
    as (chain & label & Hanc & _ & Hrun).
  exists chain. specialize (Hrun (size m)). simpl in Hrun. rewrite app_nil_r in Hrun.
  split; [by apply Hrun|].
  pose proof (ancestors_reached _ _ _ _ Hkeyed Hanc) as Hreached.
  rewrite Forall_forall in Hreached. repeat split.
  - clear Hrun Hreached Hk Hname. induction Hanc as [|k r r' chain label Hk Hext Hk' Hanc IH];
      [constructor|].
    constructor; [|done]. rewrite (Hkeyed _ _ Hk'). intros Hin.
    pose proof (ancestors_reached _ _ _ _ Hkeyed Hanc) as Hreached.
    rewrite Forall_forall in Hreached. by destruct (Hacyclic _ (proj1 (Hreached _ Hin))).
  - intros Hin. by destruct (Hacyclic _ (proj1 (Hreached _ Hin))).
  - intros x Hin. by apply Hreached.
Qed.

Lemma parents_lines_distinct_witness :
  ∃ lines,
    parents Example.env (size Example.set) "B" "." true false
    = Some (mkOutcome lines None) ∧
    NoDup lines ∧ ("B" ∉ lines) ∧ ∀ x, x ∈ lines → is_Some (Example.set !! x).
Proof.
  apply (parents_lines_distinct Example.env "B" "." Example.set Example.B).
  - reflexivity.
  - reflexivity.
  - reflexivity.
  - apply example_keyed.
  - apply example_acyclic.
  - apply example_resolved.
  - reflexivity.
Defined.


